(** * SHA256.cpp: a shallow embedding and its verified properties

    The program is one translation unit: eight global registers [h0..h7],
    the table [k] of round constants, seven bit-twiddling macros and the
    function [sha256], which pads its argument, runs the block loop over the
    padded message (updating the globals), and prints the globals in hex;
    [main] reads a file, calls [sha256] on its contents and prints the
    result.

    Conventions of the embedding.
    - [uint32_t], [uint64_t]/[size_t] and [uint8_t] values are integers of
      [Z]; every operation that can leave the range is followed by its
      wrap-around ([wrap32], [wrap64], [wrap8]).  [size_t] is taken to be
      64 bits wide.  A vector's [size()] and the block index [i] are plain
      integers: [std::vector<uint8_t>::max_size()] is below [2^63], so
      [i + 64] cannot wrap on an execution of the program.
    - A subscript on a vector or an array returns [OutOfRange] when the index
      is outside the object, so that a run that ends in [Ok] made no such
      access.
    - The two loops whose trip count depends on the data (the zero padding
      and the block loop) take fuel and return [OutOfFuel] when it runs out;
      counted [for] loops recurse on their trip count.
    - The globals [h0..h7] are a [State] threaded through [sha256]; a call
      is a [Prog], a function from the registers before the call to the
      returned value and the registers after it.
    - [main] takes what the file system gives for its path (no stream, or
      the characters read) and returns its status with what it wrote to
      [std::cout] and [std::cerr].
    - The incremental interface the specification describes is not in the
      source; [Stream] models it from the specification, over the source's
      block functions, to compare it with [sha256]. *)

From Stdlib Require Import ZArith List String Ascii Bool Lia.
Import ListNotations.
Local Open Scope Z_scope.

(** ** Outcomes of a run *)

Inductive outcome (A : Type) : Type :=
| Ok (a : A)
| OutOfRange
| OutOfFuel.

Arguments Ok {A} a.
Arguments OutOfRange {A}.
Arguments OutOfFuel {A}.

Definition bind {A B : Type} (m : outcome A) (f : A -> outcome B) : outcome B :=
  match m with
  | Ok a => f a
  | OutOfRange => OutOfRange
  | OutOfFuel => OutOfFuel
  end.

Notation "x <- m ;; f" := (bind m (fun x => f))
  (at level 61, m at next level, right associativity).

(** ** Machine integers *)

Definition wrap8 (x : Z) : Z := x mod 2 ^ 8.
Definition wrap32 (x : Z) : Z := x mod 2 ^ 32.
Definition wrap64 (x : Z) : Z := x mod 2 ^ 64.

(** [+] on two [uint32_t]. *)
Definition add32 (x y : Z) : Z := wrap32 (x + y).

(** [<<] on a [uint32_t]: bits shifted past bit 31 are lost. *)
Definition shl32 (x n : Z) : Z := wrap32 (Z.shiftl x n).

(** [~] on a [uint32_t]. *)
Definition not32 (x : Z) : Z := wrap32 (Z.lnot x).

Definition word_ok (x : Z) : Prop := 0 <= x < 2 ^ 32.
Definition byte_ok (x : Z) : Prop := 0 <= x < 2 ^ 8.

(** ** Vectors and arrays *)

Definition size (v : list Z) : Z := Z.of_nat (List.length v).

(** [v[i]] as an rvalue. *)
Definition at_ (v : list Z) (i : Z) : outcome Z :=
  if (0 <=? i) && (i <? size v)
  then match nth_error v (Z.to_nat i) with
       | Some x => Ok x
       | None => OutOfRange
       end
  else OutOfRange.

(** [v[i] = x]. *)
Definition store (v : list Z) (i : Z) (x : Z) : outcome (list Z) :=
  if (0 <=? i) && (i <? size v)
  then Ok (firstn (Z.to_nat i) v ++ x :: skipn (S (Z.to_nat i)) v)
  else OutOfRange.

(** [v.push_back(x)] on a [std::vector<uint8_t>]: the argument is converted
    to [uint8_t]. *)
Definition push_back (v : list Z) (x : Z) : list Z := v ++ [wrap8 x].

(** ** Loops *)

(** [n] iterations of [body], the loop variable starting at [j] and going up
    by one. *)
Fixpoint for_count {T : Type} (n : nat) (j : Z) (body : Z -> T -> outcome T)
    (s : T) : outcome T :=
  match n with
  | O => Ok s
  | S n' => s' <- body j s ;; for_count n' (j + 1) body s'
  end.

(** [for (int j = lo; j < hi; j++) body]. *)
Definition for_range {T : Type} (lo hi : Z) (body : Z -> T -> outcome T)
    (s : T) : outcome T :=
  for_count (Z.to_nat (hi - lo)) lo body s.

(** [while (cond) body], at most [fuel] iterations. *)
Fixpoint while_loop {T : Type} (fuel : nat) (cond : T -> bool)
    (body : T -> outcome T) (s : T) : outcome T :=
  if cond s
  then match fuel with
       | O => OutOfFuel
       | S fuel' => s' <- body s ;; while_loop fuel' cond body s'
       end
  else Ok s.

(** ** The globals *)

Record State : Type := mkState {
  h0 : Z; h1 : Z; h2 : Z; h3 : Z; h4 : Z; h5 : Z; h6 : Z; h7 : Z
}.

(** The initialisers of [h0..h7]: the registers at program start. *)
Definition initial_state : State :=
  mkState 0x6a09e667 0xbb67ae85 0x3c6ef372 0xa54ff53a
          0x510e527f 0x9b05688c 0x1f83d9ab 0x5be0cd19.

Definition state_ok (st : State) : Prop :=
  word_ok (h0 st) /\ word_ok (h1 st) /\ word_ok (h2 st) /\ word_ok (h3 st) /\
  word_ok (h4 st) /\ word_ok (h5 st) /\ word_ok (h6 st) /\ word_ok (h7 st).

(** The table [k], in the order of the initialiser. *)
Definition k : list Z :=
  0x428a2f98 :: 0x71374491 :: 0xb5c0fbcf :: 0xe9b5dba5 ::
  0x3956c25b :: 0x59f111f1 :: 0x923f82a4 :: 0xab1c5ed5 ::
  0xd807aa98 :: 0x12835b01 :: 0x243185be :: 0x550c7dc3 ::
  0x72be5d74 :: 0x80deb1fe :: 0x9bdc06a7 :: 0xc19bf174 ::
  0xe49b69c1 :: 0xefbe4786 :: 0x0fc19dc6 :: 0x240ca1cc ::
  0x2de92c6f :: 0x4a7484aa :: 0x5cb0a9dc :: 0x76f988da ::
  0x983e5152 :: 0xa831c66d :: 0xb00327c8 :: 0xbf597fc7 ::
  0xc6e00bf3 :: 0xd5a79147 :: 0x06ca6351 :: 0x14292967 ::
  0x27b70a85 :: 0x2e1b2138 :: 0x4d2c6dfc :: 0x53380d13 ::
  0x650a7354 :: 0x766a0abb :: 0x81c2c92e :: 0x92722c85 ::
  0xa2bfe8a1 :: 0xa81a664b :: 0xc24b8b70 :: 0xc76c51a3 ::
  0xd192e819 :: 0xd6990624 :: 0xf40e3585 :: 0x106aa070 ::
  0x19a4c116 :: 0x1e376c08 :: 0x2748774c :: 0x34b0bcb5 ::
  0x391c0cb3 :: 0x4ed8aa4a :: 0x5b9cca4f :: 0x682e6ff3 ::
  0x748f82ee :: 0x78a5636f :: 0x84c87814 :: 0x8cc70208 ::
  0x90befffa :: 0xa4506ceb :: 0xbef9a3f7 :: 0xc67178f2 ::
  nil.

(** ** The macros *)

Definition ROTRIGHT (word bits : Z) : Z :=
  Z.lor (Z.shiftr word bits) (shl32 word (32 - bits)).
Definition CH (x y z : Z) : Z := Z.lxor (Z.land x y) (Z.land (not32 x) z).
Definition MAJ (x y z : Z) : Z :=
  Z.lxor (Z.lxor (Z.land x y) (Z.land x z)) (Z.land y z).
Definition EP0 (x : Z) : Z :=
  Z.lxor (Z.lxor (ROTRIGHT x 2) (ROTRIGHT x 13)) (ROTRIGHT x 22).
Definition EP1 (x : Z) : Z :=
  Z.lxor (Z.lxor (ROTRIGHT x 6) (ROTRIGHT x 11)) (ROTRIGHT x 25).
Definition SIG0 (x : Z) : Z :=
  Z.lxor (Z.lxor (ROTRIGHT x 7) (ROTRIGHT x 18)) (Z.shiftr x 3).
Definition SIG1 (x : Z) : Z :=
  Z.lxor (Z.lxor (ROTRIGHT x 17) (ROTRIGHT x 19)) (Z.shiftr x 10).

(** ** [sha256], lines 49-59: the padding *)

(** The [std::vector<uint8_t>] built from the characters of the argument. *)
Definition bytes_of_string (input : string) : list Z :=
  map (fun c => Z.of_N (N_of_ascii c)) (list_ascii_of_string input).

(** The test of the [while] at line 54, on [size_t]. *)
Definition pad_cond (message : list Z) : bool :=
  negb (wrap64 (wrap64 (size message * 8) + 64) mod 512 =? 0).

Definition padding (fuel : nat) (input : list Z) : outcome (list Z) :=
  let message := input in
  let original_bit_length := wrap64 (size message * 8) in
  let message := push_back message 0x80 in
  message <- while_loop fuel pad_cond
               (fun message => Ok (push_back message 0x00)) message ;;
  for_range 0 8
    (fun i message =>
       Ok (push_back message
             (Z.land (Z.shiftr original_bit_length (56 - i * 8)) 0xFF)))
    message.

(** ** [sha256], lines 62-99: the block loop *)

(** Lines 66-68.  The bytes are promoted to [int] before the shifts; the
    value assigned to [w[j]] is the 32-bit pattern of the disjunction. *)
Definition schedule_load (message : list Z) (i : Z) (j : Z) (w : list Z)
    : outcome (list Z) :=
  b0 <- at_ message (i + j * 4) ;;
  b1 <- at_ message (i + j * 4 + 1) ;;
  b2 <- at_ message (i + j * 4 + 2) ;;
  b3 <- at_ message (i + j * 4 + 3) ;;
  store w j
    (wrap32 (Z.lor (Z.lor (Z.lor (Z.shiftl b0 24) (Z.shiftl b1 16))
                          (Z.shiftl b2 8)) b3)).

(** Lines 71-73. *)
Definition schedule_extend (j : Z) (w : list Z) : outcome (list Z) :=
  w2 <- at_ w (j - 2) ;;
  w7 <- at_ w (j - 7) ;;
  w15 <- at_ w (j - 15) ;;
  w16 <- at_ w (j - 16) ;;
  store w j (add32 (add32 (add32 (SIG1 w2) w7) (SIG0 w15)) w16).

(** Lines 63-73: the array [w] is declared without an initialiser; its
    cells stand at 0 here until the loops write them, and no cell is read
    before it is written. *)
Definition schedule (message : list Z) (i : Z) : outcome (list Z) :=
  let w := repeat 0 64 in
  w <- for_range 0 16 (schedule_load message i) w ;;
  for_range 16 64 schedule_extend w.

(** The working variables [a..h]. *)
Record Regs : Type := mkRegs {
  ra : Z; rb : Z; rc : Z; rd : Z; re : Z; rf : Z; rg : Z; rh : Z
}.

(** Lines 80-94: one round. *)
Definition round (w : list Z) (j : Z) (r : Regs) : outcome Regs :=
  let '(mkRegs a b c d e f g h) := r in
  let S1 := EP1 e in
  let ch := CH e f g in
  kj <- at_ k j ;;
  wj <- at_ w j ;;
  let temp1 := add32 (add32 (add32 (add32 h S1) ch) kj) wj in
  let S0 := EP0 a in
  let maj := MAJ a b c in
  let temp2 := add32 S0 maj in
  Ok (mkRegs (add32 temp1 temp2) a b c (add32 d temp1) e f g).

(** Lines 76-98: the compression of one block into the globals. *)
Definition compress (st : State) (w : list Z) : outcome State :=
  let r := mkRegs (h0 st) (h1 st) (h2 st) (h3 st)
                  (h4 st) (h5 st) (h6 st) (h7 st) in
  r <- for_range 0 64 (round w) r ;;
  let '(mkRegs a b c d e f g h) := r in
  Ok (mkState (add32 (h0 st) a) (add32 (h1 st) b) (add32 (h2 st) c)
              (add32 (h3 st) d) (add32 (h4 st) e) (add32 (h5 st) f)
              (add32 (h6 st) g) (add32 (h7 st) h)).

(** Lines 63-98: the body of the block loop at index [i]. *)
Definition process_block (message : list Z) (i : Z) (st : State)
    : outcome State :=
  w <- schedule message i ;;
  compress st w.

(** Line 62: [for (size_t i = 0; i < message.size(); i += 64)], from [i]. *)
Definition block_loop (fuel : nat) (message : list Z) (i : Z) (st : State)
    : outcome State :=
  r <- while_loop fuel
         (fun s : Z * State => fst s <? size message)
         (fun s => st' <- process_block message (fst s) (snd s) ;;
                   Ok (fst s + 64, st'))
         (i, st) ;;
  Ok (snd r).

(** ** [sha256], lines 102-106: the hex output *)

Definition hex_digit (d : Z) : ascii :=
  nth (Z.to_nat d)
      (list_ascii_of_string "0123456789abcdef") "0"%char.

(** The digits [operator<<] produces for an unsigned value under [std::hex]:
    no leading zeros, at least one digit, lowercase since [std::uppercase]
    is not set.  [fuel] bounds the number of digits. *)
Fixpoint hex_digits (fuel : nat) (x : Z) (acc : string) : string :=
  match fuel with
  | O => acc
  | S fuel' =>
      let acc' := String (hex_digit (x mod 16)) acc in
      if x / 16 =? 0 then acc' else hex_digits fuel' (x / 16) acc'
  end.

(** [ss << x] for a [uint32_t] under [std::hex]: at most 8 digits. *)
Definition put_hex (x : Z) : string := hex_digits 8 x "".

Fixpoint fill_string (n : nat) (c : ascii) : string :=
  match n with
  | O => EmptyString
  | S n' => String c (fill_string n' c)
  end.

(** The effect of [std::setw(width)] with fill character [fill] on the next
    item: the default adjustment pads on the left. *)
Definition setw (width : nat) (fill : ascii) (s : string) : string :=
  (fill_string (width - String.length s) fill ++ s)%string.

(** Lines 102-106. *)
Definition digest_string (st : State) : string :=
  let out (x : Z) := setw 8 "0"%char (put_hex x) in
  (out (h0 st) ++ out (h1 st) ++ out (h2 st) ++ out (h3 st) ++
   out (h4 st) ++ out (h5 st) ++ out (h6 st) ++ out (h7 st))%string.

(** ** [sha256] *)

(** A call that reads and writes the globals. *)
Definition Prog (A : Type) : Type := State -> outcome (A * State).

Definition ret {A : Type} (a : A) : Prog A := fun st => Ok (a, st).

Definition seq_ {A B : Type} (p : Prog A) (q : A -> Prog B) : Prog B :=
  fun st => r <- p st ;; q (fst r) (snd r).

Definition sha256_fuel (fuel : nat) (input : string) : Prog string :=
  fun st =>
    message <- padding fuel (bytes_of_string input) ;;
    st' <- block_loop fuel message 0 st ;;
    Ok (digest_string st', st').

(** Fuel that covers both loops: the zero padding runs at most 63 times,
    the block loop once per 64 bytes of a message of at most
    [length input + 72] bytes. *)
Definition sha256 (input : string) : Prog string :=
  sha256_fuel (String.length input + 72) input.

(** Calls of [sha256] one after the other in one process; the digests
    returned, in order. *)
Fixpoint sha256_calls (inputs : list string) : Prog (list string) :=
  match inputs with
  | [] => ret []
  | x :: rest =>
      seq_ (sha256 x) (fun d =>
      seq_ (sha256_calls rest) (fun ds => ret (d :: ds)))
  end.

(** The block loop run to its end from index 0: one unit of fuel per byte
    is more than the loop can use. *)
Definition run_blocks (message : list Z) (st : State) : outcome State :=
  block_loop (List.length message) message 0 st.

(** [v[i]] once the index is known to be in range. *)
Definition zth (v : list Z) (i : Z) : Z := nth (Z.to_nat i) v 0.

(** ** The specification's side

    Definitions that follow the wording of the specification; the theorems
    below compare them with the definitions taken from the source. *)

Module Spec.

(** A 32-bit right rotation: the word moves down by [n] bits and the [n]
    bits that fall off re-enter at the top. *)
Definition rotr (x n : Z) : Z := x / 2 ^ n + (x mod 2 ^ n) * 2 ^ (32 - n).

Definition sig0 (x : Z) : Z :=
  Z.lxor (Z.lxor (rotr x 7) (rotr x 18)) (Z.shiftr x 3).
Definition sig1 (x : Z) : Z :=
  Z.lxor (Z.lxor (rotr x 17) (rotr x 19)) (Z.shiftr x 10).

(** The big-endian word of four bytes. *)
Definition be32 (b0 b1 b2 b3 : Z) : Z :=
  b0 * 2 ^ 24 + b1 * 2 ^ 16 + b2 * 2 ^ 8 + b3.

(** The value of a byte string read big-endian. *)
Definition be_value (bytes : list Z) : Z :=
  fold_left (fun acc b => acc * 256 + b) bytes 0.

(** The number of zero bytes after the 0x80 byte for an input of [n]
    bytes. *)
Definition zero_count (n : Z) : Z := (55 - n) mod 64.

(** The eight bytes of the 64-bit bit counter of an input of [n] bytes, and
    the padded message. *)
Definition length_field (n : Z) : list Z :=
  map (fun s => (n * 8) mod 2 ^ 64 / 2 ^ s mod 256)
      [56; 48; 40; 32; 24; 16; 8; 0].

Definition pad (input : list Z) : list Z :=
  input ++ [0x80] ++ repeat 0 (Z.to_nat (zero_count (size input))) ++
  length_field (size input).

(** The 32-bit complement. *)
Definition not_ (x : Z) : Z := 2 ^ 32 - 1 - x.

(** One round of the compression function on the working registers. *)
Definition round (kj wj : Z) (r : Regs) : Regs :=
  let '(mkRegs a b c d e f g h) := r in
  let S1 := Z.lxor (Z.lxor (rotr e 6) (rotr e 11)) (rotr e 25) in
  let ch := Z.lxor (Z.land e f) (Z.land (not_ e) g) in
  let t1 := (h + S1 + ch + kj + wj) mod 2 ^ 32 in
  let S0 := Z.lxor (Z.lxor (rotr a 2) (rotr a 13)) (rotr a 22) in
  let maj := Z.lxor (Z.lxor (Z.land a b) (Z.land a c)) (Z.land b c) in
  let t2 := (S0 + maj) mod 2 ^ 32 in
  mkRegs ((t1 + t2) mod 2 ^ 32) a b c ((d + t1) mod 2 ^ 32) e f g.

(** Rounds [0 .. n-1]. *)
Definition rounds (n : nat) (w : list Z) (r : Regs) : Regs :=
  fold_left (fun r j => round (nth j k 0) (nth j w 0) r) (seq 0 n) r.

Definition compress (st : State) (w : list Z) : State :=
  let '(mkRegs a b c d e f g h) :=
    rounds 64 w (mkRegs (h0 st) (h1 st) (h2 st) (h3 st)
                        (h4 st) (h5 st) (h6 st) (h7 st)) in
  mkState ((h0 st + a) mod 2 ^ 32) ((h1 st + b) mod 2 ^ 32)
          ((h2 st + c) mod 2 ^ 32) ((h3 st + d) mod 2 ^ 32)
          ((h4 st + e) mod 2 ^ 32) ((h5 st + f) mod 2 ^ 32)
          ((h6 st + g) mod 2 ^ 32) ((h7 st + h) mod 2 ^ 32).

(** The four bytes of a register, most significant first. *)
Definition be32_bytes (x : Z) : list Z :=
  [x / 2 ^ 24 mod 256; x / 2 ^ 16 mod 256; x / 2 ^ 8 mod 256; x mod 256].

(** The 32-byte digest. *)
Definition serialize (st : State) : list Z :=
  be32_bytes (h0 st) ++ be32_bytes (h1 st) ++ be32_bytes (h2 st) ++
  be32_bytes (h3 st) ++ be32_bytes (h4 st) ++ be32_bytes (h5 st) ++
  be32_bytes (h6 st) ++ be32_bytes (h7 st).

(** Two lowercase hex digits per byte. *)
Fixpoint to_hex (bytes : list Z) : string :=
  match bytes with
  | [] => EmptyString
  | b :: rest =>
      String (hex_digit (b / 16)) (String (hex_digit (b mod 16)) (to_hex rest))
  end.

Definition lower_hex (c : ascii) : bool :=
  existsb (Ascii.eqb c) (list_ascii_of_string "0123456789abcdef").

(** [n] hex digits of [x], most significant first, zeros included. *)
Fixpoint hex_fixed (n : nat) (x : Z) : string :=
  match n with
  | O => EmptyString
  | S n' => (hex_fixed n' (x / 16) ++ String (hex_digit (x mod 16)) EmptyString)%string
  end.

(** Reading a digest back: the value of a hex digit, the bytes of a hex
    string, the big-endian words of a byte string. *)
Definition digit_value (c : ascii) : Z :=
  let n := N_of_ascii c in
  if (N.leb 48 n && N.leb n 57)%bool then Z.of_N n - 48
  else if (N.leb 97 n && N.leb n 102)%bool then Z.of_N n - 87
  else 0.

Fixpoint of_hex (s : string) : list Z :=
  match s with
  | String c1 (String c2 rest) =>
      (digit_value c1 * 16 + digit_value c2) :: of_hex rest
  | _ => []
  end.

Fixpoint words_be (bytes : list Z) : list Z :=
  match bytes with
  | b0 :: b1 :: b2 :: b3 :: rest => be32 b0 b1 b2 b3 :: words_be rest
  | _ => []
  end.

End Spec.

(** ** Auxiliary notions of the statements *)

(** The word the loop at lines 66-68 assigns to [w[t]] for the block at
    index [i]. *)
Definition loaded (message : list Z) (i : Z) (t : Z) : Z :=
  wrap32 (Z.lor (Z.lor (Z.lor (Z.shiftl (zth message (i + t * 4)) 24)
                              (Z.shiftl (zth message (i + t * 4 + 1)) 16))
                       (Z.shiftl (zth message (i + t * 4 + 2)) 8))
                (zth message (i + t * 4 + 3))).

(** The word the loop at lines 71-73 assigns to [w[t]]. *)
Definition extended (w : list Z) (t : Z) : Z :=
  add32 (add32 (add32 (SIG1 (zth w (t - 2))) (zth w (t - 7)))
               (SIG0 (zth w (t - 15)))) (zth w (t - 16)).

(** The working variables are 32-bit words. *)
Definition regs_ok (r : Regs) : Prop :=
  word_ok (ra r) /\ word_ok (rb r) /\ word_ok (rc r) /\ word_ok (rd r) /\
  word_ok (re r) /\ word_ok (rf r) /\ word_ok (rg r) /\ word_ok (rh r).

(** The blocks of the message in order, by number. *)
Definition blocks (message : list Z) (n : nat) (b : Z) (st : State)
    : outcome State :=
  for_count n b (fun b st => process_block message (64 * b) st) st.

(** A 64-byte block of a padded message, as the first run of the block loop
    sees it: the bytes of "abc", the 0x80 byte, 52 zero bytes and the bit
    length 24. *)
Definition abc_block : list Z :=
  [97; 98; 99; 128] ++ repeat 0 59 ++ [24].

(** The block loop over the pieces of a message in order, each piece from
    the registers the previous one left. *)
Fixpoint run_pieces (pieces : list (list Z)) (st : State) : outcome State :=
  match pieces with
  | [] => Ok st
  | p :: rest => st1 <- run_blocks p st ;; run_pieces rest st1
  end.

(** The string a call returned, if it returned. *)
Definition digest_of (r : outcome (string * State)) : option string :=
  match r with
  | Ok (d, _) => Some d
  | _ => None
  end.

(** An input of exactly 64 bytes. *)
Definition a64 : string :=
  "aaaaaaaaaaaaaaaaaaaaaaaaaaaaaaaaaaaaaaaaaaaaaaaaaaaaaaaaaaaaaaaa".

(** ** The schedule loops on an array of any contents *)


(** ** [main], lines 109-133 *)

(** The path at line 110, as the characters of the literal. *)
Definition filename : string :=
  "C:\Users\reddy\OneDrive\Documents\sha256_book_of_mark.txt".

(** What is written to [std::cout] and to [std::cerr]. *)
Record Console : Type := mkConsole { cout : string; cerr : string }.

(** [std::endl]: a newline. *)
Definition endl : string := String "010"%char EmptyString.

(** [s.empty()]. *)
Definition empty (s : string) : bool :=
  match s with
  | EmptyString => true
  | String _ _ => false
  end.

(** [main].  The file at [filename] is what the run is given: [None] when
    the stream does not open, otherwise the characters read from it up to
    its end.  The value is the status returned and the two streams. *)
Definition main (file : option string) : Prog (Z * Console) :=
  fun st =>
    match file with
    | None =>
        Ok ((1, mkConsole EmptyString
                  ("Error opening file: " ++ filename ++ endl)%string), st)
    | Some bookOfMark =>
        if empty bookOfMark
        then Ok ((1, mkConsole EmptyString
                       ("File is empty or could not be read." ++ endl)%string),
                 st)
        else
          r <- sha256 bookOfMark st ;;
          let hash := fst r in
          Ok ((0, mkConsole
                    ("SHA-256 hash of the Book of Mark: " ++ hash ++ endl)%string
                    EmptyString),
              snd r)
    end.

(** A run of the program: [main] entered with the globals at their
    initialisers. *)
Definition program (file : option string) : outcome (Z * Console) :=
  r <- main file initial_state ;; Ok (fst r).

(** ** The incremental interface of the specification

    The source has no incremental interface; the specification describes
    one (sections 3, 4.1 and 6).  It is modelled here over the source's own
    schedule and compression, [process_block], and compared below with
    [sha256]. *)

Module Stream.

(** Modelled from the spec: the hash instance, absent from the source. It
    owns the State, the StreamBuffer of unconsumed bytes with the counter of
    all bits absorbed, and is Active or Finalized. *)
Record Instance : Type := mkInstance {
  registers : State;
  buffer : list Z;
  total_bits : Z;
  finalized : bool
}.

(** Modelled from the spec: what [absorb] and [finalize] answer, absent
    from the source. [AlreadyFinalized] is the specification's error;
    [Fault] stands for a block handed to the source's functions that does
    not come back (a subscript out of range, or fuel run out). *)
Inductive answer (A : Type) : Type :=
| Done (a : A)
| AlreadyFinalized
| Fault.

Arguments Done {A} a.
Arguments AlreadyFinalized {A}.
Arguments Fault {A}.

(** Modelled from the spec: [new()], absent from the source: "a fresh
    instance with IV state and empty StreamBuffer/counter". *)
Definition new : Instance := mkInstance initial_state [] 0 false.

(** Modelled from the spec: the release of blocks by the Padder, absent
    from the source: "for every full 64-byte prefix now available, hands it
    to Scheduler+Compressor and removes it from the buffer". *)
Definition drain (fuel : nat) (st : State) (buf : list Z)
    : outcome (State * list Z) :=
  while_loop fuel
    (fun s : State * list Z => 64 <=? size (snd s))
    (fun s => st' <- process_block (firstn 64 (snd s)) 0 (fst s) ;;
              Ok (st', skipn 64 (snd s)))
    (st, buf).

(** Modelled from the spec: [absorb(bytes)], absent from the source:
    "appends bytes to StreamBuffer, increments the bit-length counter by
    8*len(bytes)", releases the full blocks, and fails with "already
    finalized" on a terminal instance. *)
Definition absorb (inst : Instance) (bytes : list Z) : answer Instance :=
  if finalized inst then AlreadyFinalized
  else
    let buf := buffer inst ++ bytes in
    match drain (List.length buf) (registers inst) buf with
    | Ok (st, rest) =>
        Done (mkInstance st rest (total_bits inst + 8 * size bytes) false)
    | _ => Fault
    end.

(** Modelled from the spec: the test of the zero fill in [finalize]: "until
    the buffer length in bits satisfies (bits + 64) mod 512 == 0". *)
Definition fill_cond (buf : list Z) : bool :=
  negb ((size buf * 8 + 64) mod 512 =? 0).

(** Modelled from the spec: [finalize()], absent from the source: "appends
    a single 0x80 byte, then zero bytes, until the buffer length in bits
    satisfies (bits + 64) mod 512 == 0; then appends the original total
    bit-length counter as 8 big-endian bytes"; the one or two blocks this
    gives are released in order, the digest is the serialised State, and the
    instance becomes terminal. *)
Definition finalize (inst : Instance) : answer (list Z * Instance) :=
  if finalized inst then AlreadyFinalized
  else
    let buf := buffer inst ++ [0x80] in
    match while_loop 64 fill_cond (fun buf => Ok (buf ++ [0x00])) buf with
    | Ok buf =>
        let buf :=
          buf ++ map (fun s => total_bits inst / 2 ^ s mod 256)
                     [56; 48; 40; 32; 24; 16; 8; 0] in
        match drain (List.length buf) (registers inst) buf with
        | Ok (st, rest) =>
            Done (Spec.serialize st, mkInstance st rest (total_bits inst) true)
        | _ => Fault
        end
    | _ => Fault
    end.

(** [absorb] of the chunks in order. *)
Fixpoint absorb_all (inst : Instance) (chunks : list (list Z))
    : answer Instance :=
  match chunks with
  | [] => Done inst
  | c :: rest =>
      match absorb inst c with
      | Done inst' => absorb_all inst' rest
      | AlreadyFinalized => AlreadyFinalized
      | Fault => Fault
      end
  end.

(** [new(); absorb(c1); ...; absorb(cn); finalize()]. *)
Definition feed (chunks : list (list Z)) : answer (list Z * Instance) :=
  match absorb_all new chunks with
  | Done inst => finalize inst
  | AlreadyFinalized => AlreadyFinalized
  | Fault => Fault
  end.

(** Modelled from the spec: the one-shot [hash(bytes)], "equivalent to
    new(); absorb(all); finalize()". *)
Definition hash (bytes : list Z) : answer (list Z * Instance) :=
  feed [bytes].

End Stream.

(** What an active instance holds after absorbing the bytes [X]: the
    counter is the bits of [X], the buffer is the end of [X] short of a
    block, and the registers are those of the block loop on the rest. *)
Definition absorbed (inst : Stream.Instance) (X : list Z) : Prop :=
  Stream.finalized inst = false /\
  Stream.total_bits inst = 8 * size X /\
  size (Stream.buffer inst) < 64 /\
  exists P, X = P ++ Stream.buffer inst /\ size P mod 64 = 0 /\
            run_blocks P initial_state = Ok (Stream.registers inst).


(** * Properties *)

(** ** The outcome monad and the loops *)

Lemma bind_ext {A B : Type} (m : outcome A) (f g : A -> outcome B) :
  (forall a, f a = g a) -> bind m f = bind m g.
Proof. intros H. destruct m; cbn; auto. Qed.

Lemma in_range (v : list Z) (i : Z) :
  0 <= i < size v -> (0 <=? i) && (i <? size v) = true.
Proof.
  intros Hi. apply andb_true_iff. split; [apply Z.leb_le | apply Z.ltb_lt]; lia.
Qed.

Lemma at_ok (v : list Z) (i : Z) :
  0 <= i < size v -> at_ v i = Ok (zth v i).
Proof.
  intros Hi. unfold at_. rewrite (in_range v i Hi). unfold zth, size in *.
  destruct (nth_error v (Z.to_nat i)) as [x|] eqn:E.
  - now rewrite (nth_error_nth _ _ 0 E).
  - apply nth_error_None in E. lia.
Qed.

Lemma at_out (v : list Z) (i : Z) :
  ~ 0 <= i < size v -> at_ v i = OutOfRange.
Proof.
  intros Hi. unfold at_.
  destruct (0 <=? i) eqn:E1; [|reflexivity].
  destruct (i <? size v) eqn:E2; [|reflexivity].
  apply Z.leb_le in E1. apply Z.ltb_lt in E2. lia.
Qed.

Lemma store_ok (v : list Z) (i x : Z) :
  0 <= i < size v ->
  exists v', store v i x = Ok v' /\ size v' = size v /\ zth v' i = x /\
             (forall t, 0 <= t -> t <> i -> zth v' t = zth v t).
Proof.
  intros Hi. unfold store. rewrite (in_range v i Hi). unfold size in *.
  eexists; split; [reflexivity|].
  assert (Hf : List.length (firstn (Z.to_nat i) v) = Z.to_nat i)
    by (rewrite length_firstn; lia).
  split; [|split].
  - rewrite length_app, Hf. cbn [List.length]. rewrite length_skipn. lia.
  - unfold zth. rewrite app_nth2 by lia. rewrite Hf, Nat.sub_diag. reflexivity.
  - intros t Ht Hne. unfold zth.
    destruct (Z_lt_dec t i) as [Hlt|Hge].
    + rewrite app_nth1 by lia. rewrite nth_firstn.
      destruct (Nat.ltb_spec (Z.to_nat t) (Z.to_nat i)); [reflexivity|lia].
    + rewrite app_nth2 by lia. rewrite Hf.
      destruct (Z.to_nat t - Z.to_nat i)%nat as [|d] eqn:E; [lia|].
      cbn [nth]. rewrite nth_skipn. f_equal. lia.
Qed.

(** The invariant rule of the counted loop. *)
Lemma for_count_inv {T : Type} (P : Z -> T -> Prop) (body : Z -> T -> outcome T)
    (n : nat) : forall (j : Z) (s : T),
  P j s ->
  (forall i s0, j <= i < j + Z.of_nat n -> P i s0 ->
     exists s', body i s0 = Ok s' /\ P (i + 1) s') ->
  exists s', for_count n j body s = Ok s' /\ P (j + Z.of_nat n) s'.
Proof.
  induction n as [|n IH]; intros j s HP Hstep.
  - exists s. split; [reflexivity|]. now rewrite Z.add_0_r.
  - destruct (Hstep j s ltac:(lia) HP) as [s1 [E1 HP1]].
    destruct (IH (j + 1) s1 HP1) as [s2 [E2 HP2]].
    { intros i s0 Hi. apply Hstep. lia. }
    exists s2. split.
    + cbn [for_count]. rewrite E1. exact E2.
    + replace (j + Z.of_nat (S n)) with (j + 1 + Z.of_nat n) by lia. exact HP2.
Qed.

(** A counted loop depends on its body only at the indices it visits. *)
Lemma for_count_ext {T : Type} (f g : Z -> T -> outcome T) (n : nat) :
  forall (j : Z) (s : T),
  (forall i s0, j <= i < j + Z.of_nat n -> f i s0 = g i s0) ->
  for_count n j f s = for_count n j g s.
Proof.
  induction n as [|n IH]; intros j s H; [reflexivity|].
  cbn [for_count]. rewrite (H j s) by lia.
  destruct (g j s) as [s1| |]; cbn [bind]; try reflexivity.
  apply IH. intros i s0 Hi. apply H. lia.
Qed.

Lemma for_count_app {T : Type} (f : Z -> T -> outcome T) (n m : nat) :
  forall (j : Z) (s : T),
  for_count (n + m) j f s =
  (s' <- for_count n j f s ;; for_count m (j + Z.of_nat n) f s').
Proof.
  induction n as [|n IH]; intros j s.
  - cbn. now rewrite Z.add_0_r.
  - cbn [for_count Nat.add]. destruct (f j s) as [s1| |]; cbn [bind]; try reflexivity.
    rewrite IH. replace (j + 1 + Z.of_nat n) with (j + Z.of_nat (S n)) by lia.
    reflexivity.
Qed.

(** ** Words and bits *)

Lemma wrap32_ok (x : Z) : word_ok (wrap32 x).
Proof. unfold word_ok, wrap32. apply Z.mod_pos_bound. lia. Qed.

Lemma add32_ok (x y : Z) : word_ok (add32 x y).
Proof. apply wrap32_ok. Qed.

Lemma testbit_high (x i : Z) : word_ok x -> 32 <= i -> Z.testbit x i = false.
Proof.
  unfold word_ok. intros Hx Hi.
  destruct (Z.eq_dec x 0) as [->|Hnz]; [apply Z.bits_0|].
  apply Z.bits_above_log2; [lia|].
  apply Z.lt_le_trans with 32; [|lia].
  apply Z.log2_lt_pow2; lia.
Qed.

(** Bit [i] of the rotated word is bit [i + n] of the word, counted round
    the 32 positions. *)
Lemma ROTRIGHT_testbit (x n i : Z) :
  word_ok x -> 0 < n < 32 -> 0 <= i < 32 ->
  Z.testbit (ROTRIGHT x n) i = Z.testbit x ((i + n) mod 32).
Proof.
  intros Hx Hn Hi. unfold ROTRIGHT, shl32, wrap32.
  rewrite Z.lor_spec, Z.shiftr_spec by lia.
  rewrite Z.mod_pow2_bits_low by lia.
  rewrite Z.shiftl_spec by lia.
  destruct (Z_lt_dec (i + n) 32) as [Hlt|Hge].
  - rewrite Z.mod_small by lia.
    rewrite (Z.testbit_neg_r x (i - (32 - n))) by lia. apply orb_false_r.
  - replace ((i + n) mod 32) with (i + n - 32)
      by (Z.div_mod_to_equations; lia).
    replace (i - (32 - n)) with (i + n - 32) by lia.
    now rewrite (testbit_high x (i + n)) by (trivial; lia).
Qed.

Lemma ROTRIGHT_rotr (x n : Z) :
  word_ok x -> 0 < n < 32 -> ROTRIGHT x n = Spec.rotr x n.
Proof.
  intros Hx Hn. unfold ROTRIGHT, Spec.rotr, shl32, wrap32.
  assert (Hs : Z.shiftl x (32 - n) mod 2 ^ 32 = Z.shiftl (x mod 2 ^ n) (32 - n)).
  { rewrite !Z.shiftl_mul_pow2 by lia.
    replace (2 ^ 32) with (2 ^ n * 2 ^ (32 - n))
      by (rewrite <- Z.pow_add_r by lia; f_equal; lia).
    apply Z.mul_mod_distr_r; apply Z.pow_nonzero; lia. }
  rewrite Hs, <- Z.shiftr_div_pow2, <- Z.shiftl_mul_pow2 by lia.
  rewrite <- Z.lxor_lor, <- Z.add_nocarry_lxor; auto.
  all: apply Z.bits_inj'; intros i Hi.
  all: rewrite Z.land_spec, Z.shiftr_spec, Z.shiftl_spec, Z.bits_0 by lia.
  all: destruct (Z_lt_dec i (32 - n)) as [Hlt|Hge];
    [ rewrite (Z.testbit_neg_r _ (i - (32 - n))) by lia; apply andb_false_r
    | rewrite (testbit_high x (i + n)) by (trivial; lia); reflexivity ].
Qed.

Lemma SIG0_sig0 (x : Z) : word_ok x -> SIG0 x = Spec.sig0 x.
Proof.
  intros Hx. unfold SIG0, Spec.sig0. now rewrite !ROTRIGHT_rotr by (trivial; lia).
Qed.

Lemma SIG1_sig1 (x : Z) : word_ok x -> SIG1 x = Spec.sig1 x.
Proof.
  intros Hx. unfold SIG1, Spec.sig1. now rewrite !ROTRIGHT_rotr by (trivial; lia).
Qed.

Lemma not32_not (x : Z) : word_ok x -> not32 x = Spec.not_ x.
Proof.
  unfold word_ok, not32, Spec.not_, wrap32, Z.lnot. intros Hx.
  replace (Z.pred (- x)) with (2 ^ 32 - 1 - x + (-1) * 2 ^ 32) by lia.
  rewrite Z.mod_add by lia. apply Z.mod_small. lia.
Qed.

(** A disjunction with a value below the shift is a sum. *)
Lemma lor_high_low (a b n : Z) :
  0 <= n -> 0 <= b < 2 ^ n -> Z.lor (a * 2 ^ n) b = a * 2 ^ n + b.
Proof.
  intros Hn Hb.
  rewrite <- Z.lxor_lor, <- Z.add_nocarry_lxor; auto.
  all: apply Z.bits_inj'; intros i Hi.
  all: rewrite Z.land_spec, Z.bits_0, <- Z.shiftl_mul_pow2 by lia.
  all: destruct (Z_lt_dec i n) as [Hlt|Hge];
    [ rewrite Z.shiftl_spec_low by lia; reflexivity
    | rewrite <- (Z.mod_small b (2 ^ n)) by lia;
      rewrite Z.mod_pow2_bits_high by lia; apply andb_false_r ].
Qed.

Lemma load_be32 (b0 b1 b2 b3 : Z) :
  byte_ok b0 -> byte_ok b1 -> byte_ok b2 -> byte_ok b3 ->
  wrap32 (Z.lor (Z.lor (Z.lor (Z.shiftl b0 24) (Z.shiftl b1 16))
                       (Z.shiftl b2 8)) b3)
  = Spec.be32 b0 b1 b2 b3.
Proof.
  unfold byte_ok, Spec.be32, wrap32. intros H0 H1 H2 H3.
  rewrite !Z.shiftl_mul_pow2 by lia.
  rewrite (lor_high_low b0 (b1 * 2 ^ 16) 24) by lia.
  replace (b0 * 2 ^ 24 + b1 * 2 ^ 16) with ((b0 * 2 ^ 8 + b1) * 2 ^ 16) by lia.
  rewrite (lor_high_low _ (b2 * 2 ^ 8) 16) by lia.
  replace ((b0 * 2 ^ 8 + b1) * 2 ^ 16 + b2 * 2 ^ 8)
    with ((b0 * 2 ^ 16 + b1 * 2 ^ 8 + b2) * 2 ^ 8) by lia.
  rewrite (lor_high_low _ b3 8) by lia.
  rewrite Z.mod_small by lia. lia.
Qed.

Lemma for_range_inv {T : Type} (P : Z -> T -> Prop) (body : Z -> T -> outcome T)
    (lo hi : Z) (s : T) :
  lo <= hi ->
  P lo s ->
  (forall i s0, lo <= i < hi -> P i s0 ->
     exists s', body i s0 = Ok s' /\ P (i + 1) s') ->
  exists s', for_range lo hi body s = Ok s' /\ P hi s'.
Proof.
  intros Hle HP Hstep. unfold for_range.
  destruct (for_count_inv P body (Z.to_nat (hi - lo)) lo s HP) as [s' [E HP']].
  - intros i s0 Hi. apply Hstep. lia.
  - exists s'. split; [exact E|].
    replace hi with (lo + Z.of_nat (Z.to_nat (hi - lo))) by lia. exact HP'.
Qed.

Lemma add32_sum4 (a b c d : Z) :
  add32 (add32 (add32 a b) c) d = (a + b + c + d) mod 2 ^ 32.
Proof.
  unfold add32, wrap32.
  rewrite Zplus_mod_idemp_l, <- Z.add_assoc, Zplus_mod_idemp_l.
  f_equal. lia.
Qed.

Lemma add32_sum5 (a b c d e : Z) :
  add32 (add32 (add32 (add32 a b) c) d) e = (a + b + c + d + e) mod 2 ^ 32.
Proof.
  unfold add32 at 1. rewrite add32_sum4. unfold wrap32.
  now rewrite Zplus_mod_idemp_l.
Qed.

(** ** The message schedule *)

Section Schedule.

Variables (message : list Z) (i : Z).
Hypothesis Hi : 0 <= i.
Hypothesis Hblock : i + 64 <= size message.


Lemma schedule_load_inv (w0 : list Z) :
  size w0 = 64 ->
  exists w, for_range 0 16 (schedule_load message i) w0 = Ok w /\
    size w = 64 /\ forall t, 0 <= t < 16 -> zth w t = loaded message i t.
Proof.
  intros Hw0.
  apply (for_range_inv
           (fun j w => size w = 64 /\
                      forall t, 0 <= t < j -> zth w t = loaded message i t)).
  - lia.
  - split; [exact Hw0 | intros; lia].
  - intros j w Hj [Hs Hw]. unfold schedule_load.
    rewrite !at_ok by lia. cbn [bind].
    match goal with |- context [store w j ?x] =>
      destruct (store_ok w j x) as [w' [E [Hs' [Hj' Ho]]]]; [lia|] end.
    exists w'. split; [exact E|]. split; [lia|].
    intros t Ht. destruct (Z.eq_dec t j) as [->|Hne].
    + exact Hj'.
    + rewrite Ho by lia. apply Hw. lia.
Qed.

Lemma schedule_inv :
  exists w, schedule message i = Ok w /\ size w = 64 /\
    (forall t, 0 <= t < 16 -> zth w t = loaded message i t) /\
    (forall t, 16 <= t < 64 -> zth w t = extended w t) /\
    (forall t, 0 <= t < 64 -> word_ok (zth w t)).
Proof.
  unfold schedule.
  destruct (schedule_load_inv (repeat 0 64)) as [w1 [E1 [Hs1 Hl1]]];
    [reflexivity|].
  rewrite E1. cbn [bind].
  destruct (for_range_inv
    (fun j w => size w = 64 /\
                (forall t, 0 <= t < 16 -> zth w t = loaded message i t) /\
                (forall t, 16 <= t < j -> zth w t = extended w t))
    schedule_extend 16 64 w1) as [w [E [Hs [Hl He]]]].
  - lia.
  - split; [exact Hs1|]. split; [exact Hl1 | intros; lia].
  - intros j w Hj [Hs [Hl He]]. unfold schedule_extend.
    rewrite !at_ok by lia. cbn [bind].
    match goal with |- context [store w j ?x] =>
      destruct (store_ok w j x) as [w' [E [Hs' [Hj' Ho]]]]; [lia|] end.
    exists w'. split; [exact E|]. split; [lia|]. split.
    + intros t Ht. rewrite Ho by lia. apply Hl. lia.
    + intros t Ht. unfold extended. rewrite !(Ho (t - _)) by lia.
      destruct (Z.eq_dec t j) as [->|Hne].
      * exact Hj'.
      * rewrite Ho by lia. apply He. lia.
  - exists w. split; [exact E|]. split; [exact Hs|]. split; [exact Hl|].
    split; [exact He|].
    intros t Ht. destruct (Z_lt_dec t 16).
    + rewrite Hl by lia. apply wrap32_ok.
    + rewrite He by lia. apply add32_ok.
Qed.

End Schedule.

Lemma Forall_zth (P : Z -> Prop) (v : list Z) (t : Z) :
  Forall P v -> 0 <= t < size v -> P (zth v t).
Proof.
  intros HF Ht. unfold zth, size in *.
  apply (proj1 (Forall_forall P v) HF). apply nth_In. lia.
Qed.


Lemma abc_block_bytes : Forall byte_ok abc_block.
Proof. unfold abc_block, byte_ok. repeat constructor; lia. Defined.

(** C5. For the 64-byte block at index [i] of a message of bytes, the
    schedule loops succeed and leave an array [w] of 64 words in which
    [w[0..15]] are the big-endian words of the block's 4-byte groups and,
    for [16 <= j < 64],
    [w[j] = (SIG1(w[j-2]) + w[j-7] + SIG0(w[j-15]) + w[j-16]) mod 2^32],
    with [SIG0(x) = ROTR(x,7) xor ROTR(x,18) xor (x >> 3)],
    [SIG1(x) = ROTR(x,17) xor ROTR(x,19) xor (x >> 10)] and [ROTR] the
    rotation of a 32-bit word to the right: bit [b] of [ROTR(x,n)] is bit
    [(b + n) mod 32] of [x]. *)
Theorem schedule_words (message : list Z) (i : Z) :
  0 <= i -> i + 64 <= size message -> Forall byte_ok message ->
  exists w, schedule message i = Ok w /\ size w = 64 /\
    (forall j, 0 <= j < 16 ->
       zth w j = Spec.be32 (zth message (i + j * 4))
                           (zth message (i + j * 4 + 1))
                           (zth message (i + j * 4 + 2))
                           (zth message (i + j * 4 + 3))) /\
    (forall j, 16 <= j < 64 ->
       zth w j = (Spec.sig1 (zth w (j - 2)) + zth w (j - 7) +
                  Spec.sig0 (zth w (j - 15)) + zth w (j - 16)) mod 2 ^ 32) /\
    (forall x n b, word_ok x -> 0 < n < 32 -> 0 <= b < 32 ->
       Z.testbit (Spec.rotr x n) b = Z.testbit x ((b + n) mod 32)).
Proof.
  intros Hi Hblock Hbytes.
  destruct (schedule_inv message i Hi Hblock) as [w [E [Hs [Hl [He Hok]]]]].
  exists w. split; [exact E|]. split; [exact Hs|]. split; [|split].
  - intros j Hj. rewrite Hl by exact Hj. unfold loaded.
    apply load_be32; apply Forall_zth; trivial; lia.
  - intros j Hj. rewrite He by exact Hj. unfold extended.
    rewrite add32_sum4.
    rewrite SIG1_sig1 by (apply Hok; lia).
    rewrite SIG0_sig0 by (apply Hok; lia).
    reflexivity.
  - intros x n b Hx Hn Hb. rewrite <- ROTRIGHT_rotr by trivial.
    now apply ROTRIGHT_testbit.
Qed.

Lemma schedule_words_witness :
  0 <= 0 /\ 0 + 64 <= size abc_block /\ Forall byte_ok abc_block /\
  exists w, schedule abc_block 0 = Ok w /\ size w = 64 /\
    (forall j, 0 <= j < 16 ->
       zth w j = Spec.be32 (zth abc_block (0 + j * 4))
                           (zth abc_block (0 + j * 4 + 1))
                           (zth abc_block (0 + j * 4 + 2))
                           (zth abc_block (0 + j * 4 + 3))) /\
    (forall j, 16 <= j < 64 ->
       zth w j = (Spec.sig1 (zth w (j - 2)) + zth w (j - 7) +
                  Spec.sig0 (zth w (j - 15)) + zth w (j - 16)) mod 2 ^ 32) /\
    (forall x n b, word_ok x -> 0 < n < 32 -> 0 <= b < 32 ->
       Z.testbit (Spec.rotr x n) b = Z.testbit x ((b + n) mod 32)).
Proof.
  assert (H1 : 0 <= 0) by lia.
  assert (H2 : 0 + 64 <= size abc_block) by (vm_compute; discriminate).
  split; [exact H1|]. split; [exact H2|]. split; [exact abc_block_bytes|].
  exact (schedule_words abc_block 0 H1 H2 abc_block_bytes).
Defined.

(** ** The compression function *)


Lemma size_k : size k = 64.
Proof. reflexivity. Qed.

Lemma round_spec (w : list Z) (j : Z) (r : Regs) :
  0 <= j < 64 -> size w = 64 -> regs_ok r ->
  round w j r = Ok (Spec.round (zth k j) (zth w j) r) /\
  regs_ok (Spec.round (zth k j) (zth w j) r).
Proof.
  intros Hj Hw Hr. destruct r as [a b c d e f g h].
  destruct Hr as (Ha & Hb & Hc & Hd & He & Hf & Hg & Hh).
  cbn [ra rb rc rd re rf rg rh] in *.
  unfold round, Spec.round.
  rewrite !at_ok by (rewrite ?size_k; lia). cbn [bind].
  unfold EP0, EP1, CH, MAJ.
  rewrite !ROTRIGHT_rotr by (trivial; lia).
  rewrite not32_not by trivial.
  rewrite (add32_sum5 h _ _ (zth k j) (zth w j)).
  split; [reflexivity|].
  unfold regs_ok, word_ok; cbn [ra rb rc rd re rf rg rh].
  repeat split; try apply Ha; try apply Hb; try apply Hc; try apply He;
    try apply Hf; try apply Hg; apply Z.mod_pos_bound; reflexivity.
Qed.

Lemma rounds_spec (w : list Z) (n : nat) : forall (j0 : nat) (r : Regs),
  (j0 + n <= 64)%nat -> size w = 64 -> regs_ok r ->
  for_count n (Z.of_nat j0) (round w) r =
  Ok (fold_left (fun r j => Spec.round (nth j k 0) (nth j w 0) r) (seq j0 n) r).
Proof.
  induction n as [|n IH]; intros j0 r Hn Hw Hr; [reflexivity|].
  cbn [for_count seq fold_left].
  destruct (round_spec w (Z.of_nat j0) r) as [E Hr']; trivial; [lia|].
  rewrite E. cbn [bind]. unfold zth. rewrite Nat2Z.id.
  replace (Z.of_nat j0 + 1) with (Z.of_nat (S j0)) by lia.
  apply IH; trivial; [lia|].
  unfold zth in Hr'. now rewrite Nat2Z.id in Hr'.
Qed.

(** C6. On registers and a schedule array of 64 words, the code's
    compression (working variables loaded from the state, the [for] loop of
    rounds, the final additions) succeeds and returns the state the
    specification's compression defines: 64 rounds of
    [S1 = ROTR(e,6) xor ROTR(e,11) xor ROTR(e,25)],
    [ch = (e and f) xor (not e and g)], [t1 = h + S1 + ch + k[j] + w[j]],
    [S0 = ROTR(a,2) xor ROTR(a,13) xor ROTR(a,22)],
    [maj = (a and b) xor (a and c) xor (b and c)], [t2 = S0 + maj],
    [(a..h) := (t1 + t2, a, b, c, d + t1, e, f, g)], all modulo 2^32, then
    the old state plus [(a..h)] component-wise modulo 2^32. *)
Theorem compress_spec (st : State) (w : list Z) :
  state_ok st -> size w = 64 ->
  compress st w = Ok (Spec.compress st w).
Proof.
  intros Hst Hw. unfold compress, Spec.compress, Spec.rounds, for_range.
  change (Z.to_nat (64 - 0)) with 64%nat.
  assert (Hr : regs_ok (mkRegs (h0 st) (h1 st) (h2 st) (h3 st)
                               (h4 st) (h5 st) (h6 st) (h7 st)))
    by exact Hst.
  pose proof (rounds_spec w 64 0 _ (le_n 64) Hw Hr) as E.
  change (Z.of_nat 0) with 0 in E. rewrite E. cbn [bind].
  destruct (fold_left _ _ _).
  reflexivity.
Qed.

Lemma compress_spec_witness :
  state_ok initial_state /\ size (repeat 0 64) = 64 /\
  compress initial_state (repeat 0 64)
  = Ok (Spec.compress initial_state (repeat 0 64)).
Proof.
  assert (H1 : state_ok initial_state)
    by (unfold state_ok, word_ok; cbn; lia).
  assert (H2 : size (repeat 0 64) = 64) by reflexivity.
  split; [exact H1|]. split; [exact H2|].
  exact (compress_spec initial_state (repeat 0 64) H1 H2).
Defined.

(** ** The padding *)

Lemma pad_cond_spec (m : list Z) :
  pad_cond m = negb ((size m + 8) mod 64 =? 0).
Proof.
  unfold pad_cond, wrap64. f_equal.
  assert (Hs : 0 <= size m) by (unfold size; lia).
  destruct (Z.eqb_spec ((size m + 8) mod 64) 0) as [E|E];
    [apply Z.eqb_eq | apply Z.eqb_neq]; Z.div_mod_to_equations; lia.
Qed.

Lemma size_app (a b : list Z) : size (a ++ b) = size a + size b.
Proof. unfold size. rewrite length_app. lia. Qed.

Lemma pad_zeros (z : nat) : forall (m : list Z) (fuel : nat),
  Z.of_nat z = (56 - size m) mod 64 -> (z <= fuel)%nat ->
  while_loop fuel pad_cond (fun message => Ok (push_back message 0x00)) m
  = Ok (m ++ repeat 0 z).
Proof.
  induction z as [|z IH]; intros m fuel Hz Hfuel.
  - destruct fuel; cbn [while_loop]; rewrite pad_cond_spec;
      replace ((size m + 8) mod 64) with 0
        by (change (Z.of_nat 0) with 0 in Hz; Z.div_mod_to_equations; lia);
      cbn; now rewrite app_nil_r.
  - destruct fuel as [|fuel]; [lia|].
    cbn [while_loop]. rewrite pad_cond_spec.
    destruct (Z.eqb_spec ((size m + 8) mod 64) 0) as [E|E];
      [exfalso; Z.div_mod_to_equations; lia|].
    cbn [negb bind]. unfold push_back. change (wrap8 0) with 0.
    rewrite IH.
    + rewrite <- app_assoc. reflexivity.
    + rewrite size_app. change (size [0]) with 1.
      Z.div_mod_to_equations; lia.
    + lia.
Qed.

Lemma push_byte (v s : Z) :
  0 <= s -> wrap8 (Z.land (Z.shiftr v s) 0xFF) = v / 2 ^ s mod 256.
Proof.
  intros Hs. change 0xFF with (Z.ones 8). rewrite Z.land_ones by lia.
  rewrite Z.shiftr_div_pow2 by lia. unfold wrap8.
  rewrite Z.mod_mod by lia. reflexivity.
Qed.

(** The eight bytes the loop at lines 57-59 appends for the counter [v]. *)
Lemma length_bytes (v : Z) (m : list Z) :
  for_range 0 8
    (fun i message =>
       Ok (push_back message (Z.land (Z.shiftr v (56 - i * 8)) 0xFF))) m
  = Ok (m ++ map (fun s => v / 2 ^ s mod 256) [56; 48; 40; 32; 24; 16; 8; 0]).
Proof.
  unfold for_range. change (Z.to_nat (8 - 0)) with 8%nat.
  cbn [for_count bind map]. unfold push_back.
  rewrite <- !app_assoc. cbn [app].
  rewrite !push_byte by lia. reflexivity.
Qed.

Lemma be_value_length_bytes (v : Z) :
  0 <= v < 2 ^ 64 ->
  Spec.be_value (map (fun s => v / 2 ^ s mod 256) [56; 48; 40; 32; 24; 16; 8; 0])
  = v.
Proof.
  intros Hv. unfold Spec.be_value. cbn [map fold_left].
  change (2 ^ 56) with 72057594037927936.
  change (2 ^ 48) with 281474976710656.
  change (2 ^ 40) with 1099511627776.
  change (2 ^ 32) with 4294967296.
  change (2 ^ 24) with 16777216.
  change (2 ^ 16) with 65536.
  change (2 ^ 8) with 256.
  change (2 ^ 0) with 1.
  change (2 ^ 64) with 18446744073709551616 in Hv.
  Z.div_mod_to_equations. lia.
Qed.

Lemma size_repeat (x : Z) (n : nat) : size (repeat x n) = Z.of_nat n.
Proof. unfold size. now rewrite repeat_length. Qed.

Lemma padding_value (input : list Z) (fuel : nat) :
  (63 <= fuel)%nat -> padding fuel input = Ok (Spec.pad input).
Proof.
  intros Hfuel.
  assert (Hn : 0 <= size input) by (unfold size; lia).
  assert (Hz : 0 <= Spec.zero_count (size input) < 64)
    by (apply Z.mod_pos_bound; lia).
  unfold padding, Spec.pad, Spec.length_field. unfold push_back at 2.
  change (wrap8 128) with 128.
  rewrite (pad_zeros (Z.to_nat (Spec.zero_count (size input)))).
  - cbn [bind]. rewrite length_bytes. unfold wrap64.
    now rewrite <- !app_assoc.
  - rewrite size_app. change (size [128]) with 1.
    rewrite Z2Nat.id by lia. unfold Spec.zero_count. f_equal. lia.
  - lia.
Qed.

Lemma length_field_ok (n : Z) : Forall byte_ok (Spec.length_field n).
Proof.
  unfold Spec.length_field, byte_ok.
  repeat constructor; apply Z.mod_pos_bound; lia.
Qed.

Lemma pad_size (input : list Z) :
  let n := size input in
  size (Spec.pad input)
  = 64 * (n / 64 + (if n mod 64 <=? 55 then 1 else 2)).
Proof.
  intros n.
  assert (Hn : 0 <= n) by (unfold n, size; lia).
  assert (Hz : 0 <= Spec.zero_count n < 64) by (apply Z.mod_pos_bound; lia).
  unfold Spec.pad. rewrite !size_app, size_repeat. fold n.
  change (size [128]) with 1.
  change (size (Spec.length_field n)) with 8.
  rewrite Z2Nat.id by lia. unfold Spec.zero_count.
  destruct (Z.leb_spec (n mod 64) 55); Z.div_mod_to_equations; lia.
Qed.

Lemma pad_ok (input : list Z) :
  Forall byte_ok input -> Forall byte_ok (Spec.pad input).
Proof.
  intros Hin. unfold Spec.pad.
  apply Forall_app. split; [exact Hin|].
  apply Forall_app. split; [unfold byte_ok; repeat constructor; lia|].
  apply Forall_app. split; [|apply length_field_ok].
  apply Forall_forall. intros x Hx. apply repeat_spec in Hx. subst x.
  unfold byte_ok. lia.
Qed.

(** C4. With fuel for the 63 iterations the zero loop can need, the
    padding returns the input followed by one 0x80 byte, then
    [(55 - n) mod 64] zero bytes for an input of [n] bytes, then eight bytes.
    That count of zeros is the least for which the length in bits plus 64 is
    a multiple of 512; the eight bytes read big-endian are the bit length
    [8 * n] (as a 64-bit counter); and the padded message has one 64-byte
    block more than the [n / 64] full blocks of the input when
    [n mod 64 <= 55], two more otherwise. *)
Theorem padding_spec (input : list Z) (fuel : nat) :
  (63 <= fuel)%nat ->
  let n := size input in
  let z := Spec.zero_count n in
  exists len_bytes padded,
    padding fuel input = Ok padded /\
    padded = input ++ [0x80] ++ repeat 0 (Z.to_nat z) ++ len_bytes /\
    0 <= z /\
    ((n + 1 + z) * 8 + 64) mod 512 = 0 /\
    (forall z', 0 <= z' < z -> ((n + 1 + z') * 8 + 64) mod 512 <> 0) /\
    List.length len_bytes = 8%nat /\
    Forall byte_ok len_bytes /\
    Spec.be_value len_bytes = (n * 8) mod 2 ^ 64 /\
    (n * 8 < 2 ^ 64 -> Spec.be_value len_bytes = n * 8) /\
    size padded = 64 * (n / 64 + (if n mod 64 <=? 55 then 1 else 2)).
Proof.
  intros Hfuel n z.
  assert (Hn : 0 <= n) by (unfold n, size; lia).
  assert (Hz : 0 <= z < 64) by (apply Z.mod_pos_bound; lia).
  set (v := wrap64 (n * 8)).
  assert (Hv : 0 <= v < 2 ^ 64) by (apply Z.mod_pos_bound; lia).
  exists (Spec.length_field n), (Spec.pad input).
  split; [now apply padding_value|]. split; [reflexivity|].
  split; [lia|]. split; [|split; [|split; [|split; [|split; [|split]]]]].
  - unfold z, Spec.zero_count. Z.div_mod_to_equations. lia.
  - intros z' Hz'. unfold z, Spec.zero_count in *.
    Z.div_mod_to_equations. lia.
  - reflexivity.
  - apply length_field_ok.
  - exact (be_value_length_bytes v Hv).
  - intros Hsmall. unfold Spec.length_field. fold (wrap64 (n * 8)). fold v.
    rewrite be_value_length_bytes by exact Hv.
    unfold v, wrap64. apply Z.mod_small. lia.
  - apply pad_size.
Qed.

Lemma padding_spec_witness :
  (63 <= 63)%nat /\
  let input := [97; 98; 99] in
  let n := size input in
  let z := Spec.zero_count n in
  exists len_bytes padded,
    padding 63 input = Ok padded /\
    padded = input ++ [0x80] ++ repeat 0 (Z.to_nat z) ++ len_bytes /\
    0 <= z /\
    ((n + 1 + z) * 8 + 64) mod 512 = 0 /\
    (forall z', 0 <= z' < z -> ((n + 1 + z') * 8 + 64) mod 512 <> 0) /\
    List.length len_bytes = 8%nat /\
    Forall byte_ok len_bytes /\
    Spec.be_value len_bytes = (n * 8) mod 2 ^ 64 /\
    (n * 8 < 2 ^ 64 -> Spec.be_value len_bytes = n * 8) /\
    size padded = 64 * (n / 64 + (if n mod 64 <=? 55 then 1 else 2)).
Proof.
  split; [apply le_n|].
  exact (padding_spec [97; 98; 99] 63 (le_n 63)).
Defined.

(** ** The block loop *)

Lemma round_total (w : list Z) (j : Z) (r : Regs) :
  0 <= j < 64 -> size w = 64 -> exists r', round w j r = Ok r'.
Proof.
  intros Hj Hw. destruct r as [a b c d e f g h]. unfold round.
  rewrite !at_ok by (rewrite ?size_k; lia). cbn [bind]. eauto.
Qed.

Lemma compress_total (st : State) (w : list Z) :
  size w = 64 -> exists st', compress st w = Ok st' /\ state_ok st'.
Proof.
  intros Hw. unfold compress.
  destruct (for_range_inv (fun _ _ => True) (round w) 0 64
              (mkRegs (h0 st) (h1 st) (h2 st) (h3 st)
                      (h4 st) (h5 st) (h6 st) (h7 st)))
    as [[a b c d e f g h] [E _]]; [lia | trivial | |].
  - intros j r Hj _. destruct (round_total w j r Hj Hw) as [r' E]. eauto.
  - rewrite E. cbn [bind]. eexists. split; [reflexivity|].
    unfold state_ok. cbn [h0 h1 h2 h3 h4 h5 h6 h7].
    repeat split; apply add32_ok.
Qed.

Lemma process_block_total (message : list Z) (i : Z) (st : State) :
  0 <= i -> i + 64 <= size message ->
  exists st', process_block message i st = Ok st' /\ state_ok st'.
Proof.
  intros Hi Hb. unfold process_block.
  destruct (schedule_inv message i Hi Hb) as [w [E [Hw _]]].
  rewrite E. cbn [bind]. now apply compress_total.
Qed.


(** With fuel for the blocks that remain, the loop at line 62 runs the body
    once per block. *)
Lemma block_loop_blocks (message : list Z) (n : nat) :
  forall (fuel : nat) (b : Z) (st : State),
  size message = 64 * (b + Z.of_nat n) -> (n <= fuel)%nat ->
  block_loop fuel message (64 * b) st = blocks message n b st.
Proof.
  unfold block_loop, blocks.
  induction n as [|n IH]; intros fuel b st Hsize Hfuel.
  - destruct fuel; cbn [while_loop for_count fst];
      (replace (64 * b <? size message) with false
         by (symmetry; apply Z.ltb_ge; lia)); reflexivity.
  - destruct fuel as [|fuel]; [lia|].
    cbn [while_loop for_count fst snd].
    replace (64 * b <? size message) with true
      by (symmetry; apply Z.ltb_lt; lia).
    destruct (process_block message (64 * b) st) as [st1| |];
      cbn [bind]; try reflexivity.
    replace (64 * b + 64) with (64 * (b + 1)) by lia.
    apply IH; lia.
Qed.

Lemma blocks_total (message : list Z) (n : nat) (b : Z) (st : State) :
  0 <= b -> 64 * (b + Z.of_nat n) <= size message ->
  exists st', blocks message n b st = Ok st' /\
              ((0 < n)%nat -> state_ok st').
Proof.
  intros Hb Hsize. unfold blocks.
  destruct (for_count_inv (fun j s => b < j -> state_ok s)
              (fun b st => process_block message (64 * b) st) n b st)
    as [st' [E Hok]].
  - lia.
  - intros j s Hj _.
    destruct (process_block_total message (64 * j) s) as [s' [E Hs']];
      [lia | lia |]. eauto.
  - exists st'. split; [exact E|]. intros Hn. apply Hok. lia.
Qed.

Lemma run_blocks_blocks (message : list Z) (n : nat) (st : State) :
  size message = 64 * Z.of_nat n ->
  run_blocks message st = blocks message n 0 st.
Proof.
  intros Hsize. unfold run_blocks.
  apply (block_loop_blocks message n (List.length message) 0 st).
  - lia.
  - unfold size in Hsize. lia.
Qed.

(** ** The bytes of the argument *)

Lemma length_bytes_of_string (input : string) :
  List.length (bytes_of_string input) = String.length input.
Proof.
  unfold bytes_of_string. rewrite length_map.
  induction input as [|c s IH]; cbn; congruence.
Qed.

Lemma bytes_of_string_ok (input : string) :
  Forall byte_ok (bytes_of_string input).
Proof.
  unfold bytes_of_string.
  induction input as [|c s IH]; cbn [list_ascii_of_string map];
    constructor; trivial.
  unfold byte_ok. pose proof (N_ascii_bounded c).
  change (2 ^ 8) with 256. lia.
Qed.

(** ** The whole call *)

(** What a call does, for any fuel at least the one [sha256] takes: the
    padding succeeds and gives a message of whole blocks, the block loop
    runs to its end on it, and the digest is printed from the registers the
    loop leaves, which stay in the globals. *)
Lemma sha256_fuel_run (fuel : nat) (input : string) (st : State) :
  (String.length input + 72 <= fuel)%nat ->
  let message := Spec.pad (bytes_of_string input) in
  exists (n : nat) (st' : State),
    padding fuel (bytes_of_string input) = Ok message /\
    size message = 64 * Z.of_nat n /\ (0 < n)%nat /\
    Forall byte_ok message /\
    blocks message n 0 st = Ok st' /\
    state_ok st' /\
    sha256_fuel fuel input st = Ok (digest_string st', st').
Proof.
  intros Hfuel message.
  pose proof (pad_size (bytes_of_string input)) as Hsize.
  cbv zeta in Hsize. fold message in Hsize.
  set (len := size (bytes_of_string input)) in *.
  assert (Hlen : len = Z.of_nat (String.length input))
    by (unfold len, size; now rewrite length_bytes_of_string).
  assert (Hlen0 : 0 <= len) by lia.
  set (nb := len / 64 + (if len mod 64 <=? 55 then 1 else 2)) in *.
  assert (Hnb : 0 < nb <= len + 72)
    by (unfold nb; destruct (len mod 64 <=? 55); Z.div_mod_to_equations; lia).
  assert (Hsz : size message = 64 * Z.of_nat (Z.to_nat nb))
    by (rewrite Z2Nat.id by lia; exact Hsize).
  destruct (blocks_total message (Z.to_nat nb) 0 st) as [st' [Hrun Hok]];
    [lia | lia |].
  exists (Z.to_nat nb), st'.
  split; [apply padding_value; lia|]. split; [exact Hsz|]. split; [lia|].
  split; [apply pad_ok, bytes_of_string_ok|].
  split; [exact Hrun|]. split; [apply Hok; lia|].
  unfold sha256_fuel. rewrite padding_value by lia. cbn [bind]. fold message.
  change 0 with (64 * 0) at 1.
  rewrite (block_loop_blocks message (Z.to_nat nb)) by lia.
  rewrite Hrun. reflexivity.
Qed.

Lemma sha256_run (input : string) (st : State) :
  let message := Spec.pad (bytes_of_string input) in
  exists (n : nat) (st' : State),
    size message = 64 * Z.of_nat n /\ (0 < n)%nat /\
    Forall byte_ok message /\
    run_blocks message st = Ok st' /\
    state_ok st' /\
    sha256 input st = Ok (digest_string st', st') /\
    (forall fuel, (String.length input + 72 <= fuel)%nat ->
       sha256_fuel fuel input st = Ok (digest_string st', st')).
Proof.
  intros message.
  destruct (sha256_fuel_run (String.length input + 72) input st (le_n _))
    as [n [st' (Hpad & Hsz & Hn & Hok & Hrun & Hst' & Hsha)]].
  fold message in Hpad, Hsz, Hok, Hrun.
  exists n, st'. split; [exact Hsz|]. split; [exact Hn|]. split; [exact Hok|].
  split; [now rewrite (run_blocks_blocks message n st Hsz)|].
  split; [exact Hst'|]. split; [exact Hsha|].
  intros fuel Hfuel.
  destruct (sha256_fuel_run fuel input st Hfuel)
    as [n2 [st2 (_ & Hsz2 & _ & _ & Hrun2 & _ & Hsha2)]].
  fold message in Hsz2, Hrun2.
  assert (n2 = n) by lia. subst n2.
  rewrite Hrun in Hrun2. injection Hrun2 as <-. exact Hsha2.
Qed.

(** ** The hex output *)

Local Open Scope string_scope.

Lemma append_nil_r (s : string) : s ++ "" = s.
Proof. induction s as [|c s IH]; cbn; congruence. Qed.

Lemma append_assoc (s t u : string) : (s ++ t) ++ u = s ++ (t ++ u).
Proof. induction s as [|c s IH]; cbn; congruence. Qed.

Lemma length_append (s t : string) :
  String.length (s ++ t) = (String.length s + String.length t)%nat.
Proof. induction s as [|c s IH]; cbn; congruence. Qed.

Lemma chars_append (s t : string) :
  list_ascii_of_string (s ++ t)
  = (list_ascii_of_string s ++ list_ascii_of_string t)%list.
Proof. induction s as [|c s IH]; cbn; congruence. Qed.

Lemma fill_string_snoc (n : nat) (c : ascii) :
  fill_string n c ++ String c "" = String c (fill_string n c).
Proof. induction n as [|n IH]; cbn; congruence. Qed.

Lemma hex_fixed_length (n : nat) : forall x,
  String.length (Spec.hex_fixed n x) = n.
Proof.
  induction n as [|n IH]; intros x; cbn [Spec.hex_fixed]; [reflexivity|].
  rewrite length_append, IH. cbn. lia.
Qed.

Lemma hex_fixed_zero (n : nat) :
  Spec.hex_fixed n 0 = fill_string n "0".
Proof.
  induction n as [|n IH]; cbn [Spec.hex_fixed]; [reflexivity|].
  change (0 / 16)%Z with 0%Z. rewrite IH.
  change (hex_digit (0 mod 16)) with "0"%char.
  apply fill_string_snoc.
Qed.

Lemma hex_digits_step (f : nat) (x : Z) (acc : string) :
  hex_digits (S f) x acc
  = if (x / 16 =? 0)%Z then String (hex_digit (x mod 16)) acc
    else hex_digits f (x / 16) (String (hex_digit (x mod 16)) acc).
Proof. reflexivity. Qed.

(** The digits the stream prints for [x], padded with zeros to the width,
    are the fixed-width rendering of [x]. *)
Lemma hex_digits_fixed (f : nat) : forall (x : Z) (acc : string),
  (0 <= x < 16 ^ Z.of_nat (S f))%Z ->
  exists s, hex_digits (S f) x acc = s ++ acc /\
            (String.length s <= S f)%nat /\
            fill_string (S f - String.length s) "0" ++ s = Spec.hex_fixed (S f) x.
Proof.
  induction f as [|f IH]; intros x acc Hx.
  - exists (String (hex_digit (x mod 16)) "").
    cbn [hex_digits].
    replace (x / 16 =? 0)%Z with true
      by (symmetry; apply Z.eqb_eq; change (16 ^ Z.of_nat 1)%Z with 16%Z in Hx;
          Z.div_mod_to_equations; lia).
    split; [reflexivity|]. split; [cbn; lia|]. reflexivity.
  - rewrite hex_digits_step. destruct (Z.eqb_spec (x / 16) 0) as [E|E].
    + exists (String (hex_digit (x mod 16)) "").
      split; [reflexivity|]. split; [cbn; lia|].
      cbn [String.length Spec.hex_fixed]. rewrite E.
      change (0 / 16)%Z with 0%Z.
      change (hex_digit (0 mod 16)) with "0"%char.
      rewrite hex_fixed_zero.
      replace (S (S f) - 1)%nat with (S f) by lia.
      cbn [fill_string append]. now rewrite fill_string_snoc.
    + destruct (IH (x / 16)%Z (String (hex_digit (x mod 16)) acc))
        as [s [Hs [Hlen Hfix]]].
      { rewrite Nat2Z.inj_succ, Z.pow_succ_r in Hx by lia.
        Z.div_mod_to_equations; lia. }
      exists (s ++ String (hex_digit (x mod 16)) "").
      split; [rewrite Hs; now rewrite append_assoc|].
      rewrite length_append. cbn [String.length].
      split; [lia|].
      replace (S (S f) - (String.length s + 1))%nat
        with (S f - String.length s)%nat by lia.
      rewrite <- append_assoc, Hfix. reflexivity.
Qed.

Lemma setw_put_hex (x : Z) :
  word_ok x -> setw 8 "0" (put_hex x) = Spec.hex_fixed 8 x.
Proof.
  intros Hx. unfold setw, put_hex.
  destruct (hex_digits_fixed 7 x "") as [s [Hs [_ Hfix]]]; [exact Hx|].
  rewrite Hs, append_nil_r. exact Hfix.
Qed.

Lemma to_hex_word (x : Z) :
  Spec.to_hex (Spec.be32_bytes x) = Spec.hex_fixed 8 x.
Proof.
  unfold Spec.be32_bytes. cbn [Spec.to_hex Spec.hex_fixed append].
  change (2 ^ 24)%Z with 16777216%Z.
  change (2 ^ 16)%Z with 65536%Z.
  change (2 ^ 8)%Z with 256%Z.
  repeat match goal with
  | |- String (hex_digit _) _ = String (hex_digit _) _ =>
      apply f_equal2; [apply (f_equal hex_digit)|]
  end; try reflexivity; Z.div_mod_to_equations; lia.
Qed.

Lemma to_hex_app (a b : list Z) :
  Spec.to_hex (a ++ b) = Spec.to_hex a ++ Spec.to_hex b.
Proof. induction a as [|x a IH]; cbn; congruence. Qed.

Lemma to_hex_length (bytes : list Z) :
  String.length (Spec.to_hex bytes) = (2 * List.length bytes)%nat.
Proof. induction bytes as [|b l IH]; cbn [Spec.to_hex String.length List.length]; lia. Qed.

Lemma digest_string_to_hex (st : State) :
  state_ok st -> digest_string st = Spec.to_hex (Spec.serialize st).
Proof.
  intros (H0 & H1 & H2 & H3 & H4 & H5 & H6 & H7).
  unfold digest_string, Spec.serialize.
  rewrite !to_hex_app, !to_hex_word, !setw_put_hex by assumption.
  reflexivity.
Qed.

Lemma hex_digit_lower (d : Z) : Spec.lower_hex (hex_digit d) = true.
Proof.
  unfold hex_digit. generalize (Z.to_nat d). intros n.
  do 16 (destruct n as [|n]; [reflexivity|]).
  cbn. now destruct n.
Qed.

Lemma to_hex_lower (bytes : list Z) :
  Forall (fun c => Spec.lower_hex c = true)
         (list_ascii_of_string (Spec.to_hex bytes)).
Proof.
  induction bytes as [|b l IH]; cbn [Spec.to_hex list_ascii_of_string].
  - constructor.
  - repeat constructor; trivial; apply hex_digit_lower.
Qed.

Lemma digit_value_hex_digit (d : Z) :
  (0 <= d < 16)%Z -> Spec.digit_value (hex_digit d) = d.
Proof.
  intros Hd.
  assert (H : exists n, (n < 16)%nat /\ d = Z.of_nat n)
    by (exists (Z.to_nat d); lia).
  destruct H as [n [Hn ->]].
  do 16 (destruct n as [|n]; [reflexivity|]). lia.
Qed.

Lemma of_hex_to_hex (bytes : list Z) :
  Forall byte_ok bytes -> Spec.of_hex (Spec.to_hex bytes) = bytes.
Proof.
  induction 1 as [|b l Hb _ IH]; [reflexivity|].
  cbn [Spec.to_hex Spec.of_hex]. rewrite IH. f_equal.
  unfold byte_ok in Hb. change (2 ^ 8)%Z with 256%Z in Hb.
  rewrite !digit_value_hex_digit by (Z.div_mod_to_equations; lia).
  Z.div_mod_to_equations; lia.
Qed.

Lemma be32_bytes_value (x : Z) :
  word_ok x ->
  Spec.be32 (x / 2 ^ 24 mod 256) (x / 2 ^ 16 mod 256) (x / 2 ^ 8 mod 256)
            (x mod 256) = x.
Proof.
  unfold word_ok, Spec.be32. intros Hx.
  change (2 ^ 32)%Z with 4294967296%Z in Hx.
  change (2 ^ 24)%Z with 16777216%Z.
  change (2 ^ 16)%Z with 65536%Z.
  change (2 ^ 8)%Z with 256%Z.
  Z.div_mod_to_equations; lia.
Qed.

Lemma words_be_serialize (st : State) :
  state_ok st ->
  Spec.words_be (Spec.serialize st)
  = [h0 st; h1 st; h2 st; h3 st; h4 st; h5 st; h6 st; h7 st].
Proof.
  intros (H0 & H1 & H2 & H3 & H4 & H5 & H6 & H7).
  unfold Spec.serialize, Spec.be32_bytes. cbn [app Spec.words_be].
  now rewrite !be32_bytes_value by assumption.
Qed.

Lemma serialize_ok (st : State) :
  List.length (Spec.serialize st) = 32%nat /\
  Forall byte_ok (Spec.serialize st).
Proof.
  split; [reflexivity|].
  unfold Spec.serialize, Spec.be32_bytes, byte_ok. cbn [app].
  repeat constructor; apply Z.mod_pos_bound; lia.
Qed.

Local Close Scope string_scope.

(** ** Blocks of a message taken in pieces *)

Lemma zth_app_l (m1 m2 : list Z) (t : Z) :
  0 <= t < size m1 -> zth (m1 ++ m2) t = zth m1 t.
Proof. intros Ht. unfold zth, size in *. apply app_nth1. lia. Qed.

Lemma zth_app_r (m1 m2 : list Z) (t : Z) :
  0 <= t -> zth (m1 ++ m2) (size m1 + t) = zth m2 t.
Proof.
  intros Ht. unfold zth, size. rewrite app_nth2 by lia. f_equal. lia.
Qed.

Lemma at_app_l (m1 m2 : list Z) (t : Z) :
  0 <= t < size m1 -> at_ (m1 ++ m2) t = at_ m1 t.
Proof.
  intros Ht. rewrite !at_ok; [now rewrite zth_app_l | lia |].
  rewrite size_app. unfold size in *. lia.
Qed.

Lemma at_app_r (m1 m2 : list Z) (t : Z) :
  0 <= t < size m2 -> at_ (m1 ++ m2) (size m1 + t) = at_ m2 t.
Proof.
  intros Ht. rewrite !at_ok; [now rewrite zth_app_r by lia | lia |].
  rewrite size_app. unfold size in *. lia.
Qed.

Lemma process_block_app_l (m1 m2 : list Z) (i : Z) (st : State) :
  0 <= i -> i + 64 <= size m1 ->
  process_block (m1 ++ m2) i st = process_block m1 i st.
Proof.
  intros Hi Hb. unfold process_block, schedule, for_range.
  rewrite (for_count_ext (schedule_load (m1 ++ m2) i) (schedule_load m1 i));
    [reflexivity|].
  intros j w Hj. unfold schedule_load.
  now rewrite !at_app_l by lia.
Qed.

Lemma process_block_app_r (m1 m2 : list Z) (i : Z) (st : State) :
  0 <= i -> i + 64 <= size m2 ->
  process_block (m1 ++ m2) (size m1 + i) st = process_block m2 i st.
Proof.
  intros Hi Hb. unfold process_block, schedule, for_range.
  rewrite (for_count_ext (schedule_load (m1 ++ m2) (size m1 + i))
             (schedule_load m2 i)); [reflexivity|].
  intros j w Hj. unfold schedule_load.
  replace (size m1 + i + j * 4) with (size m1 + (i + j * 4)) by lia.
  replace (size m1 + (i + j * 4) + 1) with (size m1 + (i + j * 4 + 1)) by lia.
  replace (size m1 + (i + j * 4) + 2) with (size m1 + (i + j * 4 + 2)) by lia.
  replace (size m1 + (i + j * 4) + 3) with (size m1 + (i + j * 4 + 3)) by lia.
  now rewrite !at_app_r by lia.
Qed.

Lemma for_count_shift {T : Type} (f : Z -> T -> outcome T) (d : Z) (n : nat) :
  forall (j : Z) (s : T),
  for_count n (j + d) f s = for_count n j (fun i => f (i + d)) s.
Proof.
  induction n as [|n IH]; intros j s; [reflexivity|].
  cbn [for_count]. destruct (f (j + d) s) as [s1| |]; cbn [bind]; try reflexivity.
  replace (j + d + 1) with (j + 1 + d) by lia. apply IH.
Qed.

Lemma blocks_app (m1 m2 : list Z) (n1 n2 : nat) (st : State) :
  size m1 = 64 * Z.of_nat n1 -> size m2 = 64 * Z.of_nat n2 ->
  blocks (m1 ++ m2) (n1 + n2) 0 st =
  (st1 <- blocks m1 n1 0 st ;; blocks m2 n2 0 st1).
Proof.
  intros H1 H2. unfold blocks. rewrite for_count_app.
  rewrite (for_count_ext _ (fun b st => process_block m1 (64 * b) st) n1)
    by (intros b s Hb; apply process_block_app_l; lia).
  apply bind_ext. intros st1.
  rewrite (for_count_shift _ (Z.of_nat n1) n2 0).
  apply for_count_ext. intros b s Hb.
  replace (64 * (b + Z.of_nat n1)) with (size m1 + 64 * b) by lia.
  apply process_block_app_r; lia.
Qed.

Lemma whole_blocks (m : list Z) :
  size m mod 64 = 0 -> exists n : nat, size m = 64 * Z.of_nat n.
Proof.
  intros H. exists (Z.to_nat (size m / 64)).
  assert (0 <= size m) by (unfold size; lia).
  rewrite Z2Nat.id by (Z.div_mod_to_equations; lia).
  Z.div_mod_to_equations; lia.
Qed.

Lemma run_blocks_app (m1 m2 : list Z) (st : State) :
  size m1 mod 64 = 0 -> size m2 mod 64 = 0 ->
  run_blocks (m1 ++ m2) st = (st1 <- run_blocks m1 st ;; run_blocks m2 st1).
Proof.
  intros H1 H2.
  destruct (whole_blocks m1 H1) as [n1 E1].
  destruct (whole_blocks m2 H2) as [n2 E2].
  rewrite (run_blocks_blocks (m1 ++ m2) (n1 + n2))
    by (rewrite size_app; lia).
  rewrite (run_blocks_blocks m1 n1 st E1), blocks_app by trivial.
  destruct (blocks m1 n1 0 st) as [st1| |]; cbn [bind]; try reflexivity.
  now rewrite (run_blocks_blocks m2 n2 st1 E2).
Qed.


Lemma size_concat_blocks (pieces : list (list Z)) :
  Forall (fun p => size p mod 64 = 0) pieces -> size (List.concat pieces) mod 64 = 0.
Proof.
  induction 1 as [|p ps Hp _ IH]; [reflexivity|].
  cbn [List.concat]. rewrite size_app. Z.div_mod_to_equations; lia.
Qed.

Lemma run_pieces_concat (pieces : list (list Z)) : forall st,
  Forall (fun p => size p mod 64 = 0) pieces ->
  run_blocks (List.concat pieces) st = run_pieces pieces st.
Proof.
  induction pieces as [|p ps IH]; intros st H; [reflexivity|].
  inversion H as [|? ? Hp Hps]; subst.
  cbn [List.concat run_pieces].
  rewrite run_blocks_app by (trivial; now apply size_concat_blocks).
  apply bind_ext. intros st1. now apply IH.
Qed.

(** * The call on given inputs, and as a whole *)

(** C1. From the initial registers, [sha256("abc")] returns the digest
    ba7816bf 8f01cfea 414140de 5dae2223 b00361a3 96177a9c b410ff61 f20015ad
    as 64 lowercase hex characters. *)
Theorem sha256_abc :
  exists st',
    sha256 "abc" initial_state
    = Ok ("ba7816bf8f01cfea414140de5dae2223b00361a396177a9cb410ff61f20015ad"%string,
          st').
Proof. eexists. vm_compute. reflexivity. Qed.

(** C3. From the initial registers, [sha256("")] succeeds and returns the
    digest of the empty string,
    e3b0c442 98fc1c14 9afbf4c8 996fb924 27ae41e4 649b934c a495991b 7852b855. *)
Theorem sha256_empty :
  exists st',
    sha256 "" initial_state
    = Ok ("e3b0c44298fc1c149afbf4c8996fb92427ae41e4649b934ca495991b7852b855"%string,
          st').
Proof. eexists. vm_compute. reflexivity. Qed.

(** The two-block test vector: a 56-byte input, whose padding takes a second
    block. *)
Example sha256_two_blocks :
  digest_of
    (sha256 "abcdbcdecdefdefgefghfghighijhijkijkljklmklmnlmnomnopnopq"
            initial_state)
  = Some "248d6a61d20638b8e5c026930c3e6039a33ce45964ff2167f6ecedd419db06c1"%string.
Proof. vm_compute. reflexivity. Qed.

(** C2, at the input on which the code departs from it. Two calls
    [sha256("abc")] one after the other in a process that starts from the
    initial registers return two different strings: the first is the digest
    of "abc", the second is not. *)
Theorem sha256_twice_differs :
  exists st',
    sha256_calls ["abc"; "abc"]%string initial_state
    = Ok (["ba7816bf8f01cfea414140de5dae2223b00361a396177a9cb410ff61f20015ad";
           "1de51655e1a8ca5f570c062c6fef497dd8110762bd8a7a48dd95482f7d22e0a2"]%string,
          st') /\
    "ba7816bf8f01cfea414140de5dae2223b00361a396177a9cb410ff61f20015ad"%string
    <> "1de51655e1a8ca5f570c062c6fef497dd8110762bd8a7a48dd95482f7d22e0a2"%string.
Proof. eexists. split; [vm_compute; reflexivity | discriminate]. Qed.

(** C7. For every input and whatever the registers hold before the call,
    the call succeeds; the registers it leaves serialize to 32 bytes, each
    register big-endian, in the order [h0..h7]; and the string returned is
    the hex rendering of those bytes: 64 characters, all lowercase hex
    digits, 8 per register with leading zeros kept; read back as hex, two
    characters to a byte, it gives the 32 bytes, and these read big-endian
    give the registers [h0..h7]. *)
Theorem digest_fixed_size (input : string) (st : State) :
  exists digest st',
    sha256 input st = Ok (digest, st') /\
    List.length (Spec.serialize st') = 32%nat /\
    Forall byte_ok (Spec.serialize st') /\
    Spec.words_be (Spec.serialize st')
    = [h0 st'; h1 st'; h2 st'; h3 st'; h4 st'; h5 st'; h6 st'; h7 st'] /\
    digest = Spec.to_hex (Spec.serialize st') /\
    String.length digest = 64%nat /\
    Forall (fun c => Spec.lower_hex c = true) (list_ascii_of_string digest) /\
    digest = (Spec.hex_fixed 8 (h0 st') ++ Spec.hex_fixed 8 (h1 st') ++
              Spec.hex_fixed 8 (h2 st') ++ Spec.hex_fixed 8 (h3 st') ++
              Spec.hex_fixed 8 (h4 st') ++ Spec.hex_fixed 8 (h5 st') ++
              Spec.hex_fixed 8 (h6 st') ++ Spec.hex_fixed 8 (h7 st'))%string /\
    Spec.of_hex digest = Spec.serialize st' /\
    Spec.words_be (Spec.of_hex digest)
    = [h0 st'; h1 st'; h2 st'; h3 st'; h4 st'; h5 st'; h6 st'; h7 st'].
Proof.
  destruct (sha256_run input st) as [n [st' (_ & _ & _ & _ & Hok & Hsha & _)]].
  exists (digest_string st'), st'.
  split; [exact Hsha|].
  split; [apply serialize_ok|]. split; [apply serialize_ok|].
  split; [now apply words_be_serialize|].
  rewrite (digest_string_to_hex st' Hok).
  split; [reflexivity|].
  split; [rewrite to_hex_length; now rewrite (proj1 (serialize_ok st'))|].
  split; [apply to_hex_lower|].
  split; [unfold Spec.serialize; now rewrite !to_hex_app, !to_hex_word|].
  rewrite of_hex_to_hex by apply serialize_ok.
  split; [reflexivity | now apply words_be_serialize].
Qed.

(** C9. For every input and whatever the registers hold before the call,
    the padded message is a positive whole number of 64-byte blocks, every
    subscript [message[i + j*4 + c]] of the block loop ([i] a multiple of 64
    below the size, [0 <= j < 16], [0 <= c < 4]) is inside the vector, and
    the call ends in [Ok]: it returns a digest, having made no subscript out
    of range and with fuel to spare, as it does for any larger fuel. *)
Theorem sha256_total (input : string) (st : State) :
  exists message digest st',
    padding (String.length input + 72) (bytes_of_string input) = Ok message /\
    0 < size message /\ size message mod 64 = 0 /\
    (forall i j c, 0 <= i < size message -> i mod 64 = 0 ->
       0 <= j < 16 -> 0 <= c < 4 ->
       exists b, at_ message (i + j * 4 + c) = Ok b) /\
    sha256 input st = Ok (digest, st') /\
    (forall fuel, (String.length input + 72 <= fuel)%nat ->
       sha256_fuel fuel input st = Ok (digest, st')).
Proof.
  destruct (sha256_run input st)
    as [n [st' (Hsz & Hn & _ & _ & _ & Hsha & Hfuel)]].
  exists (Spec.pad (bytes_of_string input)), (digest_string st'), st'.
  split; [apply padding_value; lia|].
  split; [lia|]. split; [rewrite Hsz; Z.div_mod_to_equations; lia|].
  split; [|split; [exact Hsha | exact Hfuel]].
  intros i j c Hi Hmod Hj Hc. eexists. apply at_ok.
  rewrite Hsz in *. Z.div_mod_to_equations; lia.
Qed.

Lemma sha256_total_witness :
  exists message digest st',
    padding (String.length "abc" + 72) (bytes_of_string "abc") = Ok message /\
    0 < size message /\ size message mod 64 = 0 /\
    (forall i j c, 0 <= i < size message -> i mod 64 = 0 ->
       0 <= j < 16 -> 0 <= c < 4 ->
       exists b, at_ message (i + j * 4 + c) = Ok b) /\
    sha256 "abc" initial_state = Ok (digest, st') /\
    (forall fuel, (String.length "abc" + 72 <= fuel)%nat ->
       sha256_fuel fuel "abc" initial_state = Ok (digest, st')).
Proof. exact (sha256_total "abc" initial_state). Defined.

(** C10. After a call the globals hold the registers the block loop ended
    with: eight 32-bit words whose 8-digit hex renderings, in order, are the
    string returned, and which are read back from that string. Nothing
    resets them: a following call starts from them. So after
    [sha256("abc")] from the initial registers the globals are not the
    initial ones, and a second [sha256("abc")] returns another string. *)
Theorem sha256_leaves_registers (input : string) (st : State) :
  exists digest message st',
    sha256 input st = Ok (digest, st') /\
    padding (String.length input + 72) (bytes_of_string input) = Ok message /\
    run_blocks message st = Ok st' /\
    state_ok st' /\
    digest = (Spec.hex_fixed 8 (h0 st') ++ Spec.hex_fixed 8 (h1 st') ++
              Spec.hex_fixed 8 (h2 st') ++ Spec.hex_fixed 8 (h3 st') ++
              Spec.hex_fixed 8 (h4 st') ++ Spec.hex_fixed 8 (h5 st') ++
              Spec.hex_fixed 8 (h6 st') ++ Spec.hex_fixed 8 (h7 st'))%string /\
    Spec.words_be (Spec.of_hex digest)
    = [h0 st'; h1 st'; h2 st'; h3 st'; h4 st'; h5 st'; h6 st'; h7 st'] /\
    (forall next,
       seq_ (sha256 input) (fun _ => sha256 next) st = sha256 next st') /\
    (exists st1 st2,
       sha256 "abc" initial_state
       = Ok ("ba7816bf8f01cfea414140de5dae2223b00361a396177a9cb410ff61f20015ad"%string,
             st1) /\
       st1 <> initial_state /\
       sha256 "abc" st1
       = Ok ("1de51655e1a8ca5f570c062c6fef497dd8110762bd8a7a48dd95482f7d22e0a2"%string,
             st2)).
Proof.
  destruct (sha256_run input st)
    as [n [st' (_ & _ & _ & Hrun & Hok & Hsha & _)]].
  exists (digest_string st'), (Spec.pad (bytes_of_string input)), st'.
  split; [exact Hsha|]. split; [apply padding_value; lia|].
  split; [exact Hrun|]. split; [exact Hok|].
  split; [|split; [|split]].
  - rewrite (digest_string_to_hex st' Hok). unfold Spec.serialize.
    now rewrite !to_hex_app, !to_hex_word.
  - rewrite (digest_string_to_hex st' Hok).
    rewrite of_hex_to_hex by apply serialize_ok.
    now apply words_be_serialize.
  - intros next. unfold seq_. rewrite Hsha. reflexivity.
  - eexists. eexists. split; [vm_compute; reflexivity|].
    split; [discriminate|]. vm_compute. reflexivity.
Qed.

(** Within one call, the padded message of an input may be cut into any
    pieces of whole blocks: the block loop run over the pieces in order, each
    piece from the registers the previous one left, ends in the registers
    and the digest of the call. *)
Lemma blocks_in_pieces (input : string) (pieces : list (list Z)) (st : State) :
  padding (String.length input + 72) (bytes_of_string input)
  = Ok (List.concat pieces) ->
  Forall (fun p => size p mod 64 = 0) pieces ->
  exists st',
    run_pieces pieces st = Ok st' /\
    sha256 input st = Ok (digest_string st', st').
Proof.
  intros Hpad Hpieces.
  rewrite padding_value in Hpad by lia. injection Hpad as Hpad.
  destruct (sha256_run input st)
    as [n [st' (_ & _ & _ & Hrun & _ & Hsha & _)]].
  exists st'. split; [|exact Hsha].
  rewrite Hpad, run_pieces_concat in Hrun by exact Hpieces. exact Hrun.
Qed.

Lemma blocks_in_pieces_witness :
  let pieces := [bytes_of_string a64; [128] ++ repeat 0 61 ++ [2; 0]] in
  padding (String.length a64 + 72) (bytes_of_string a64) = Ok (List.concat pieces) /\
  Forall (fun p => size p mod 64 = 0) pieces /\
  exists st',
    run_pieces pieces initial_state = Ok st' /\
    sha256 a64 initial_state = Ok (digest_string st', st').
Proof.
  intros pieces.
  assert (H1 : padding (String.length a64 + 72) (bytes_of_string a64)
               = Ok (List.concat pieces)) by (vm_compute; reflexivity).
  assert (H2 : Forall (fun p => size p mod 64 = 0) pieces)
    by (repeat constructor).
  split; [exact H1|]. split; [exact H2|].
  exact (blocks_in_pieces a64 pieces initial_state H1 H2).
Defined.

(** * Further properties of the code *)

(** ** The macros *)

Lemma word_of_bits (a : Z) :
  0 <= a -> (forall i, 32 <= i -> Z.testbit a i = false) -> word_ok a.
Proof.
  intros Ha Hhigh. unfold word_ok.
  replace a with (a mod 2 ^ 32); [apply Z.mod_pos_bound; lia|].
  apply Z.bits_inj'. intros i Hi.
  destruct (Z_lt_dec i 32) as [Hlt|Hge].
  - apply Z.mod_pow2_bits_low. lia.
  - rewrite Z.mod_pow2_bits_high by lia. symmetry. apply Hhigh. lia.
Qed.

Lemma ROTRIGHT_word (x n : Z) :
  word_ok x -> 0 < n < 32 -> word_ok (ROTRIGHT x n).
Proof.
  intros Hx Hn. rewrite ROTRIGHT_rotr by trivial. unfold Spec.rotr, word_ok in *.
  assert (H1 : 0 < 2 ^ n) by (apply Z.pow_pos_nonneg; lia).
  assert (H2 : 0 < 2 ^ (32 - n)) by (apply Z.pow_pos_nonneg; lia).
  assert (H3 : 2 ^ n * 2 ^ (32 - n) = 2 ^ 32)
    by (rewrite <- Z.pow_add_r by lia; f_equal; lia).
  assert (H4 : 0 <= x / 2 ^ n < 2 ^ (32 - n)).
  { split; [apply Z.div_pos; lia|]. apply Z.div_lt_upper_bound; lia. }
  pose proof (Z.mod_pos_bound x (2 ^ n) H1) as H5.
  nia.
Qed.

(** X1. Rotating a 32-bit word right by [n] and then by [32 - n] gives the
    word back, and a rotated word is again a 32-bit word. *)
Theorem ROTRIGHT_inverse (x n : Z) :
  word_ok x -> 0 < n < 32 ->
  word_ok (ROTRIGHT x n) /\ ROTRIGHT (ROTRIGHT x n) (32 - n) = x.
Proof.
  intros Hx Hn. pose proof (ROTRIGHT_word x n Hx Hn) as Hr.
  split; [exact Hr|].
  assert (Hrr : word_ok (ROTRIGHT (ROTRIGHT x n) (32 - n)))
    by (apply ROTRIGHT_word; trivial; lia).
  apply Z.bits_inj'. intros i Hi.
  destruct (Z_lt_dec i 32) as [Hlt|Hge].
  - rewrite !ROTRIGHT_testbit by (trivial; try lia; Z.div_mod_to_equations; lia).
    f_equal. Z.div_mod_to_equations; lia.
  - now rewrite !testbit_high by (trivial; lia).
Qed.

Lemma ROTRIGHT_inverse_witness :
  word_ok 0x6a09e667 /\ 0 < 7 < 32 /\
  word_ok (ROTRIGHT 0x6a09e667 7) /\
  ROTRIGHT (ROTRIGHT 0x6a09e667 7) (32 - 7) = 0x6a09e667.
Proof.
  assert (H1 : word_ok 0x6a09e667) by (unfold word_ok; lia).
  assert (H2 : 0 < 7 < 32) by lia.
  split; [exact H1|]. split; [exact H2|].
  exact (ROTRIGHT_inverse 0x6a09e667 7 H1 H2).
Defined.

Lemma not32_testbit (x i : Z) :
  0 <= i < 32 -> Z.testbit (not32 x) i = negb (Z.testbit x i).
Proof.
  intros Hi. unfold not32, wrap32.
  rewrite Z.mod_pow2_bits_low by lia. apply Z.lnot_spec. lia.
Qed.

(** X2. Bit by bit over the 32 positions, [CH(x,y,z)] takes the bit of [y]
    where [x] has a 1 and the bit of [z] where [x] has a 0, and [MAJ(x,y,z)]
    is the majority of the three bits. *)
Theorem CH_MAJ_bitwise (x y z i : Z) :
  0 <= i < 32 ->
  Z.testbit (CH x y z) i
  = (if Z.testbit x i then Z.testbit y i else Z.testbit z i) /\
  Z.testbit (MAJ x y z) i
  = (Z.testbit x i && Z.testbit y i) || (Z.testbit x i && Z.testbit z i)
    || (Z.testbit y i && Z.testbit z i).
Proof.
  intros Hi. unfold CH, MAJ.
  rewrite !Z.lxor_spec, !Z.land_spec, not32_testbit by exact Hi.
  destruct (Z.testbit x i), (Z.testbit y i), (Z.testbit z i); split; reflexivity.
Qed.

Lemma CH_MAJ_bitwise_witness :
  0 <= 5 < 32 /\
  Z.testbit (CH 0x510e527f 0x9b05688c 0x1f83d9ab) 5
  = (if Z.testbit 0x510e527f 5 then Z.testbit 0x9b05688c 5
     else Z.testbit 0x1f83d9ab 5) /\
  Z.testbit (MAJ 0x510e527f 0x9b05688c 0x1f83d9ab) 5
  = (Z.testbit 0x510e527f 5 && Z.testbit 0x9b05688c 5)
    || (Z.testbit 0x510e527f 5 && Z.testbit 0x1f83d9ab 5)
    || (Z.testbit 0x9b05688c 5 && Z.testbit 0x1f83d9ab 5).
Proof.
  assert (H : 0 <= 5 < 32) by lia.
  split; [exact H|].
  exact (CH_MAJ_bitwise 0x510e527f 0x9b05688c 0x1f83d9ab 5 H).
Defined.

(** ** The schedule and the block *)





(** X4. The body of the block loop at index [i] reads the message only in
    the 64 bytes from [i]: it does on the message what it does on that block
    taken alone. *)
Theorem process_block_local (message : list Z) (i : Z) (st : State) :
  0 <= i -> i + 64 <= size message ->
  process_block message i st
  = process_block (firstn 64 (skipn (Z.to_nat i) message)) 0 st.
Proof.
  intros Hi Hblock.
  set (m1 := firstn (Z.to_nat i) message).
  set (rest := skipn (Z.to_nat i) message).
  assert (Hm : message = m1 ++ firstn 64 rest ++ skipn 64 rest)
    by (unfold m1, rest; now rewrite !firstn_skipn).
  assert (H1 : size m1 = i)
    by (unfold m1, size in *; rewrite length_firstn; lia).
  assert (Hrest : size rest = size message - i)
    by (unfold rest, size in *; rewrite length_skipn; lia).
  assert (HB : size (firstn 64 rest) = 64)
    by (unfold size in *; rewrite length_firstn; lia).
  rewrite Hm at 1. replace i with (size m1 + 0) at 1 by lia.
  rewrite process_block_app_r by (rewrite ?size_app; unfold size in *; lia).
  apply process_block_app_l; lia.
Qed.

Lemma process_block_local_witness :
  0 <= 64 /\ 64 + 64 <= size (repeat 1 64 ++ abc_block) /\
  process_block (repeat 1 64 ++ abc_block) 64 initial_state
  = process_block
      (firstn 64 (skipn (Z.to_nat 64) (repeat 1 64 ++ abc_block))) 0
      initial_state.
Proof.
  assert (H1 : 0 <= 64) by lia.
  assert (H2 : 64 + 64 <= size (repeat 1 64 ++ abc_block))
    by (vm_compute; discriminate).
  split; [exact H1|]. split; [exact H2|].
  exact (process_block_local (repeat 1 64 ++ abc_block) 64 initial_state H1 H2).
Defined.

(** ** The padding, again *)

Lemma while_loop_more_fuel {T : Type} (cond : T -> bool)
    (body : T -> outcome T) (fuel : nat) :
  forall (fuel' : nat) (s r : T),
  while_loop fuel cond body s = Ok r -> (fuel <= fuel')%nat ->
  while_loop fuel' cond body s = Ok r.
Proof.
  induction fuel as [|fuel IH]; intros fuel' s r H Hle.
  - cbn [while_loop] in H. destruct (cond s) eqn:E; [discriminate|].
    destruct fuel'; cbn [while_loop]; now rewrite E.
  - destruct fuel' as [|fuel']; [lia|].
    cbn [while_loop] in *. destruct (cond s); [|exact H].
    destruct (body s) as [s1| |]; cbn [bind] in *; try discriminate.
    apply IH; [exact H | lia].
Qed.

(** Whatever the fuel, a padding that ends is the padded message. *)
Lemma padding_ok_value (fuel : nat) (input m : list Z) :
  padding fuel input = Ok m -> m = Spec.pad input.
Proof.
  intros H.
  assert (H' : padding (fuel + 63) input = Ok m).
  { unfold padding in *.
    destruct (while_loop fuel pad_cond
                (fun message => Ok (push_back message 0))
                (push_back input 128)) as [l| |] eqn:E;
      cbn [bind] in H; try discriminate.
    rewrite (while_loop_more_fuel _ _ fuel (fuel + 63) _ l E) by lia.
    exact H. }
  rewrite padding_value in H' by lia. congruence.
Qed.

Lemma app_inj_length (l1 l2 r1 r2 : list Z) :
  List.length l1 = List.length l2 -> l1 ++ r1 = l2 ++ r2 -> l1 = l2 /\ r1 = r2.
Proof.
  revert l2. induction l1 as [|a l1 IH]; intros [|b l2] Hlen H;
    cbn in *; try discriminate; [now split|].
  injection H as -> H. destruct (IH l2) as [-> ->]; [lia | exact H | now split].
Qed.

Lemma pad_injective (a b : list Z) : Spec.pad a = Spec.pad b -> a = b.
Proof.
  intros H.
  assert (Hsz : size (Spec.pad a) = size (Spec.pad b)) by now rewrite H.
  unfold Spec.pad in H, Hsz.
  rewrite !app_assoc in H.
  assert (Hlf : List.length (Spec.length_field (size a))
                = List.length (Spec.length_field (size b))) by reflexivity.
  assert (Hfront : List.length ((a ++ [128]) ++
                     repeat 0 (Z.to_nat (Spec.zero_count (size a))))
                   = List.length ((b ++ [128]) ++
                     repeat 0 (Z.to_nat (Spec.zero_count (size b))))).
  { apply (f_equal (@List.length Z)) in H. rewrite !length_app in H.
    rewrite !length_app. lia. }
  destruct (app_inj_length _ _ _ _ Hfront H) as [Hpre Hfield].
  assert (Hza : 0 <= Spec.zero_count (size a) < 64)
    by (apply Z.mod_pos_bound; lia).
  assert (Hzb : 0 <= Spec.zero_count (size b) < 64)
    by (apply Z.mod_pos_bound; lia).
  assert (Hna : 0 <= size a) by (unfold size; lia).
  assert (Hnb : 0 <= size b) by (unfold size; lia).
  assert (Hval : (size a * 8) mod 2 ^ 64 = (size b * 8) mod 2 ^ 64).
  { apply (f_equal Spec.be_value) in Hfield. unfold Spec.length_field in Hfield.
    rewrite !be_value_length_bytes in Hfield by (apply Z.mod_pos_bound; lia).
    exact Hfield. }
  assert (Hnear : size a + Spec.zero_count (size a)
                  = size b + Spec.zero_count (size b)).
  { rewrite !length_app, !repeat_length in Hfront. cbn [List.length] in Hfront.
    unfold size in *. lia. }
  assert (Hn : size a = size b).
  { change (2 ^ 64) with 18446744073709551616 in Hval.
    Z.div_mod_to_equations. lia. }
  rewrite <- !app_assoc in Hpre.
  assert (Hlen : List.length a = List.length b) by (unfold size in Hn; lia).
  exact (proj1 (app_inj_length a b _ _ Hlen Hpre)).
Qed.

(** X5. The padding is injective: two inputs on which it ends in the same
    padded message are the same input. *)
Theorem padding_injective (fuel1 fuel2 : nat) (a b m : list Z) :
  padding fuel1 a = Ok m -> padding fuel2 b = Ok m -> a = b.
Proof.
  intros Ha Hb. apply padding_ok_value in Ha, Hb.
  apply pad_injective. congruence.
Qed.

Lemma padding_injective_witness :
  let m := [97; 98; 99; 128] ++ repeat 0 59 ++ [24] in
  padding 63 [97; 98; 99] = Ok m /\ padding 80 [97; 98; 99] = Ok m /\
  [97; 98; 99] = [97; 98; 99].
Proof.
  intros m.
  assert (H1 : padding 63 [97; 98; 99] = Ok m) by (vm_compute; reflexivity).
  assert (H2 : padding 80 [97; 98; 99] = Ok m) by (vm_compute; reflexivity).
  split; [exact H1|]. split; [exact H2|].
  exact (padding_injective 63 80 [97; 98; 99] [97; 98; 99] m H1 H2).
Defined.

(** ** A message that is not whole blocks *)

Lemma for_count_fails {T : Type} (P : Z -> T -> Prop)
    (body : Z -> T -> outcome T) (n : nat) (j j1 : Z) (s : T) :
  j <= j1 < j + Z.of_nat n ->
  P j s ->
  (forall i s0, j <= i < j1 -> P i s0 ->
     exists s', body i s0 = Ok s' /\ P (i + 1) s') ->
  (forall s0, P j1 s0 -> body j1 s0 = OutOfRange) ->
  for_count n j body s = OutOfRange.
Proof.
  intros Hj HP Hbefore Hat.
  replace n with (Z.to_nat (j1 - j) + S (n - S (Z.to_nat (j1 - j))))%nat by lia.
  rewrite for_count_app.
  destruct (for_count_inv P body (Z.to_nat (j1 - j)) j s HP) as [s1 [E HP1]].
  { intros i s0 Hi. apply Hbefore. lia. }
  rewrite E. cbn [bind for_count].
  replace (j + Z.of_nat (Z.to_nat (j1 - j))) with j1 in * by lia.
  now rewrite (Hat s1 HP1).
Qed.

Lemma at_cases (v : list Z) (i : Z) :
  at_ v i = Ok (zth v i) \/ at_ v i = OutOfRange.
Proof.
  destruct (Z_le_dec 0 i); [destruct (Z_lt_dec i (size v))|];
    [left; apply at_ok; lia | right; apply at_out; lia ..].
Qed.

Lemma schedule_load_out (message : list Z) (i j : Z) (w : list Z) :
  ~ i + j * 4 + 3 < size message ->
  schedule_load message i j w = OutOfRange.
Proof.
  intros Hout. unfold schedule_load.
  destruct (at_cases message (i + j * 4)) as [-> | ->];
    cbn [bind]; [|reflexivity].
  destruct (at_cases message (i + j * 4 + 1)) as [-> | ->];
    cbn [bind]; [|reflexivity].
  destruct (at_cases message (i + j * 4 + 2)) as [-> | ->];
    cbn [bind]; [|reflexivity].
  rewrite at_out by lia. reflexivity.
Qed.

Lemma schedule_load_in (message : list Z) (i j : Z) (w : list Z) :
  0 <= i -> 0 <= j < 16 -> i + j * 4 + 3 < size message -> size w = 64 ->
  exists w', schedule_load message i j w = Ok w' /\ size w' = 64.
Proof.
  intros Hi Hj Hin Hw. unfold schedule_load.
  rewrite !at_ok by lia. cbn [bind].
  match goal with |- context [store w j ?x] =>
    destruct (store_ok w j x) as [w' [E [Hs' _]]]; [lia|] end.
  exists w'. split; [exact E | lia].
Qed.

(** The body of the block loop on a block that the message does not hold
    whole. *)
Lemma process_block_out (message : list Z) (i : Z) (st : State) :
  0 <= i < size message -> size message < i + 64 ->
  process_block message i st = OutOfRange.
Proof.
  intros Hi Hshort. unfold process_block, schedule, for_range.
  change (Z.to_nat (16 - 0)) with 16%nat.
  rewrite (for_count_fails (fun _ w => size w = 64)
             (schedule_load message i) 16 0 ((size message - i) / 4)).
  - reflexivity.
  - Z.div_mod_to_equations; lia.
  - reflexivity.
  - intros j w Hj Hw. apply schedule_load_in; trivial; try lia;
      Z.div_mod_to_equations; lia.
  - intros w _. apply schedule_load_out. Z.div_mod_to_equations; lia.
Qed.

Lemma block_loop_out (message : list Z) (n : nat) :
  forall (fuel : nat) (b : Z) (st : State),
  0 <= b ->
  64 * (b + Z.of_nat n) < size message < 64 * (b + Z.of_nat n + 1) ->
  (n < fuel)%nat ->
  block_loop fuel message (64 * b) st = OutOfRange.
Proof.
  unfold block_loop.
  induction n as [|n IH]; intros fuel b st Hb Hsize Hfuel;
    (destruct fuel as [|fuel]; [lia|]);
    cbn [while_loop fst snd];
    (replace (64 * b <? size message) with true
       by (symmetry; apply Z.ltb_lt; lia)).
  - rewrite process_block_out by lia. reflexivity.
  - destruct (process_block_total message (64 * b) st) as [st1 [E _]];
      [lia | lia |].
    rewrite E. cbn [bind fst snd].
    replace (64 * b + 64) with (64 * (b + 1)) by lia.
    apply IH; lia.
Qed.

(** X6. On a message whose size is not a multiple of 64, the block loop run
    from index 0 subscripts the vector out of range: it goes through the
    whole blocks and then reads past the end in the last, partial one. *)
Theorem run_blocks_partial_block (message : list Z) (st : State) :
  size message mod 64 <> 0 -> run_blocks message st = OutOfRange.
Proof.
  intros Hmod. unfold run_blocks.
  assert (Hs : 0 <= size message) by (unfold size; lia).
  change 0 with (64 * 0) at 1.
  apply (block_loop_out message (Z.to_nat (size message / 64))).
  - lia.
  - rewrite Z2Nat.id by (Z.div_mod_to_equations; lia).
    Z.div_mod_to_equations; lia.
  - unfold size in *. Z.div_mod_to_equations; lia.
Qed.

Lemma run_blocks_partial_block_witness :
  size (repeat 1 64 ++ [97; 98; 99]) mod 64 <> 0 /\
  run_blocks (repeat 1 64 ++ [97; 98; 99]) initial_state = OutOfRange.
Proof.
  assert (H : size (repeat 1 64 ++ [97; 98; 99]) mod 64 <> 0)
    by (vm_compute; discriminate).
  split; [exact H|].
  exact (run_blocks_partial_block (repeat 1 64 ++ [97; 98; 99]) initial_state H).
Defined.

(** ** Calls one after the other *)

Lemma pad_whole_blocks (input : list Z) : size (Spec.pad input) mod 64 = 0.
Proof.
  pose proof (pad_size input) as H. cbv zeta in H. rewrite H.
  rewrite Z.mul_comm. apply Z.mod_mul. lia.
Qed.

Lemma last_default {A : Type} (l : list A) (d d' : A) :
  l <> [] -> last l d = last l d'.
Proof.
  induction l as [|a [|b l] IH]; intros Hne; [contradiction | reflexivity |].
  change (last (b :: l) d = last (b :: l) d'). apply IH. discriminate.
Qed.

Lemma last_cons {A : Type} (a : A) (l : list A) (d : A) :
  last (a :: l) d = last l a.
Proof.
  destruct l as [|b l]; [reflexivity|].
  change (last (b :: l) d = last (b :: l) a). apply last_default. discriminate.
Qed.

(** X7. Calls of [sha256] one after the other, from any registers, all
    return, one string per call; together they do to the globals what one
    run of the block loop does on the padded messages of the inputs put end
    to end, and the last string returned is printed from those registers. *)
Theorem calls_run_padded_messages (inputs : list string) : forall st : State,
  exists ds st',
    sha256_calls inputs st = Ok (ds, st') /\
    List.length ds = List.length inputs /\
    Forall (fun x => padding (String.length x + 72) (bytes_of_string x)
                     = Ok (Spec.pad (bytes_of_string x))) inputs /\
    run_blocks
      (List.concat (map (fun x => Spec.pad (bytes_of_string x)) inputs)) st
    = Ok st' /\
    last ds (digest_string st) = digest_string st'.
Proof.
  induction inputs as [|x rest IH]; intros st.
  - exists [], st. repeat split; constructor.
  - destruct (sha256_run x st) as [n [st1 (_ & _ & _ & Hrun & _ & Hsha & _)]].
    destruct (IH st1) as [ds [st' (Hcalls & Hlen & Hpad & Hblocks & Hlast)]].
    exists (digest_string st1 :: ds), st'.
    split; [|split; [|split; [|split]]].
    + cbn [sha256_calls]. unfold seq_ at 1. rewrite Hsha. cbn [bind fst snd].
      unfold seq_. rewrite Hcalls. reflexivity.
    + cbn [List.length]. now rewrite Hlen.
    + constructor; [apply padding_value; lia | exact Hpad].
    + cbn [map List.concat]. rewrite run_blocks_app.
      * rewrite Hrun. exact Hblocks.
      * apply pad_whole_blocks.
      * apply size_concat_blocks. apply Forall_forall. intros m Hm.
        apply in_map_iff in Hm. destruct Hm as [y [<- _]].
        apply pad_whole_blocks.
    + rewrite last_cons. exact Hlast.
Qed.

Lemma state_of_words (s t : State) :
  [h0 s; h1 s; h2 s; h3 s; h4 s; h5 s; h6 s; h7 s]
  = [h0 t; h1 t; h2 t; h3 t; h4 t; h5 t; h6 t; h7 t] -> s = t.
Proof. destruct s, t. cbn. congruence. Qed.

Lemma digest_string_injective (s t : State) :
  state_ok s -> state_ok t -> digest_string s = digest_string t -> s = t.
Proof.
  intros Hs Ht H. apply state_of_words.
  rewrite <- (words_be_serialize s Hs), <- (words_be_serialize t Ht).
  rewrite <- (of_hex_to_hex (Spec.serialize s)) by apply serialize_ok.
  rewrite <- (of_hex_to_hex (Spec.serialize t)) by apply serialize_ok.
  now rewrite <- !digest_string_to_hex, H by assumption.
Qed.

(** X8. The string a call returns tells all of the globals it leaves: two
    calls that return the same string, on whatever inputs and from whatever
    registers, leave the same registers, so that any call that follows
    returns the same after either. *)
Theorem digest_fixes_registers (x1 x2 : string) (s1 s2 t1 t2 : State)
    (d : string) :
  sha256 x1 s1 = Ok (d, t1) -> sha256 x2 s2 = Ok (d, t2) ->
  t1 = t2 /\ forall y, sha256 y t1 = sha256 y t2.
Proof.
  intros H1 H2.
  destruct (sha256_run x1 s1) as [n1 [u1 (_ & _ & _ & _ & Hok1 & E1 & _)]].
  destruct (sha256_run x2 s2) as [n2 [u2 (_ & _ & _ & _ & Hok2 & E2 & _)]].
  rewrite E1 in H1. rewrite E2 in H2.
  injection H1 as Hd1 <-. injection H2 as Hd2 <-.
  assert (E : u1 = u2)
    by (apply digest_string_injective; trivial; congruence).
  split; [exact E | intros y; now rewrite E].
Qed.

Lemma digest_fixes_registers_witness :
  let d := "e3b0c44298fc1c149afbf4c8996fb92427ae41e4649b934ca495991b7852b855"%string in
  let t := mkState 0xe3b0c442 0x98fc1c14 0x9afbf4c8 0x996fb924
                   0x27ae41e4 0x649b934c 0xa495991b 0x7852b855 in
  sha256 "" initial_state = Ok (d, t) /\
  sha256 "" initial_state = Ok (d, t) /\
  t = t /\ forall y, sha256 y t = sha256 y t.
Proof.
  intros d t.
  assert (H : sha256 "" initial_state = Ok (d, t)) by (vm_compute; reflexivity).
  split; [exact H|]. split; [exact H|].
  exact (digest_fixes_registers "" "" initial_state initial_state t t d H H).
Defined.

(** ** [main] *)

Lemma empty_spec (s : string) : empty s = true <-> s = EmptyString.
Proof. destruct s; cbn; split; intros H; congruence. Qed.

(** X9. For every file and whatever the globals hold, [main] returns
    status 0 or 1. It returns 1 exactly when the stream does not open or
    nothing was read; then it writes nothing to [cout] and one line to
    [cerr] (the message with the path, or the message of the empty file),
    and it has not called [sha256]: the globals are as they were. With
    status 0 nothing is written to [cerr]. *)
Theorem main_status (file : option string) (st : State) :
  exists status con st',
    main file st = Ok ((status, con), st') /\
    (status = 0 \/ status = 1) /\
    (status = 1 <-> file = None \/ file = Some EmptyString) /\
    (status = 1 ->
       cout con = EmptyString /\ st' = st /\
       cerr con = match file with
                  | None => ("Error opening file: " ++ filename ++ endl)%string
                  | Some _ => ("File is empty or could not be read." ++ endl)%string
                  end) /\
    (status = 0 -> cerr con = EmptyString).
Proof.
  destruct file as [content|]; cbn [main].
  - destruct (empty content) eqn:E.
    + apply empty_spec in E. subst content.
      eexists _, _, _. split; [reflexivity|].
      split; [now right|]. split; [split; auto|].
      split; [intros _; now repeat split | intros H; discriminate H].
    + destruct (sha256_run content st) as [n [st' (_ & _ & _ & _ & _ & Hsha & _)]].
      rewrite Hsha. cbn [bind fst snd].
      eexists _, _, _. split; [reflexivity|].
      split; [now left|]. split; [split|].
      * intros H; discriminate H.
      * intros [H|H]; [discriminate H|]. injection H as ->. discriminate E.
      * split; [intros H; discriminate H | reflexivity].
  - eexists _, _, _. split; [reflexivity|].
    split; [now right|]. split; [split; auto|].
    split; [intros _; now repeat split | intros H; discriminate H].
Qed.

(** X10. A run of the program on a file that opens and is not empty ends
    with status 0 and writes to [cout] one line: the caption, then the
    digest [sha256] returns for the file's contents from the initial
    registers, 64 lowercase hex characters that render the registers left.
    Nothing goes to [cerr]. *)
Theorem program_prints_digest (content : string) :
  content <> EmptyString ->
  exists digest st',
    sha256 content initial_state = Ok (digest, st') /\
    program (Some content)
    = Ok (0, mkConsole
               ("SHA-256 hash of the Book of Mark: " ++ digest ++ endl)%string
               EmptyString) /\
    String.length digest = 64%nat /\
    Forall (fun c => Spec.lower_hex c = true) (list_ascii_of_string digest) /\
    digest = Spec.to_hex (Spec.serialize st').
Proof.
  intros Hne.
  destruct (sha256_run content initial_state)
    as [n [st' (_ & _ & _ & _ & Hok & Hsha & _)]].
  exists (digest_string st'), st'.
  split; [exact Hsha|]. split.
  - unfold program, main.
    destruct (empty content) eqn:E; [apply empty_spec in E; contradiction|].
    rewrite Hsha. reflexivity.
  - rewrite (digest_string_to_hex st' Hok).
    split; [rewrite to_hex_length; now rewrite (proj1 (serialize_ok st'))|].
    split; [apply to_hex_lower | reflexivity].
Qed.

Lemma program_prints_digest_witness :
  "abc"%string <> EmptyString /\
  exists digest st',
    sha256 "abc" initial_state = Ok (digest, st') /\
    program (Some "abc"%string)
    = Ok (0, mkConsole
               ("SHA-256 hash of the Book of Mark: " ++ digest ++ endl)%string
               EmptyString) /\
    String.length digest = 64%nat /\
    Forall (fun c => Spec.lower_hex c = true) (list_ascii_of_string digest) /\
    digest = Spec.to_hex (Spec.serialize st').
Proof.
  assert (H : "abc"%string <> EmptyString) by discriminate.
  split; [exact H|].
  exact (program_prints_digest "abc" H).
Defined.

Lemma main_status_witness :
  exists status con st',
    main (Some "abc"%string) initial_state = Ok ((status, con), st') /\
    (status = 0 \/ status = 1) /\
    (status = 1 <-> Some "abc"%string = None \/ Some "abc"%string = Some EmptyString) /\
    (status = 1 ->
       cout con = EmptyString /\ st' = initial_state /\
       cerr con = ("File is empty or could not be read." ++ endl)%string) /\
    (status = 0 -> cerr con = EmptyString).
Proof. exact (main_status (Some "abc"%string) initial_state). Defined.

(** * The incremental interface and the one call *)

Lemma run_blocks_one (block : list Z) (st : State) :
  size block = 64 -> run_blocks block st = process_block block 0 st.
Proof.
  intros Hb. rewrite (run_blocks_blocks block 1 st) by (rewrite Hb; reflexivity).
  unfold blocks. cbn [for_count]. change (64 * 0) with 0.
  now destruct (process_block block 0 st).
Qed.

(** The release of blocks takes the whole blocks off the front of the
    buffer and does to the registers what the block loop does on them. *)
Lemma drain_spec (q : nat) : forall (fuel : nat) (st : State) (buf : list Z),
  64 * Z.of_nat q <= size buf < 64 * (Z.of_nat q + 1) -> (q <= fuel)%nat ->
  exists front rest st',
    buf = front ++ rest /\ size front = 64 * Z.of_nat q /\
    Stream.drain fuel st buf = Ok (st', rest) /\
    run_blocks front st = Ok st'.
Proof.
  unfold Stream.drain.
  induction q as [|q IH]; intros fuel st buf Hsize Hfuel.
  - exists [], buf, st. split; [reflexivity|]. split; [reflexivity|].
    split; [|reflexivity].
    destruct fuel; cbn [while_loop snd];
      (replace (64 <=? size buf) with false
         by (symmetry; apply Z.leb_gt; lia)); reflexivity.
  - destruct fuel as [|fuel]; [lia|].
    assert (Hb : size (firstn 64 buf) = 64)
      by (unfold size in *; rewrite length_firstn; lia).
    assert (Hr : size (skipn 64 buf) = size buf - 64)
      by (unfold size in *; rewrite length_skipn; lia).
    destruct (process_block_total (firstn 64 buf) 0 st) as [st1 [E1 _]];
      [lia | lia |].
    destruct (IH fuel st1 (skipn 64 buf)) as [front [rest [st' (Hbuf & Hf & Hd & Hrun)]]];
      [lia | lia |].
    exists (firstn 64 buf ++ front), rest, st'.
    split; [rewrite <- app_assoc, <- Hbuf; now rewrite firstn_skipn|].
    split; [rewrite size_app; lia|]. split.
    + cbn [while_loop fst snd].
      replace (64 <=? size buf) with true by (symmetry; apply Z.leb_le; lia).
      rewrite E1. cbn [bind]. exact Hd.
    + rewrite run_blocks_app.
      * rewrite run_blocks_one, E1 by exact Hb. exact Hrun.
      * now rewrite Hb.
      * rewrite Hf, Z.mul_comm. apply Z.mod_mul. lia.
Qed.

Lemma absorbed_new : absorbed Stream.new [].
Proof.
  unfold absorbed. cbn. repeat split; try lia.
  exists []. repeat split.
Qed.

Lemma absorb_absorbed (inst : Stream.Instance) (X c : list Z) :
  absorbed inst X ->
  exists inst', Stream.absorb inst c = Stream.Done inst' /\
                absorbed inst' (X ++ c).
Proof.
  intros (Hfin & Hbits & Hbuf & P & HX & HP & Hrun).
  unfold Stream.absorb. rewrite Hfin.
  set (buf := Stream.buffer inst ++ c).
  assert (Hs : 0 <= size buf) by (unfold size; lia).
  destruct (drain_spec (Z.to_nat (size buf / 64)) (List.length buf)
              (Stream.registers inst) buf)
    as [front [rest [st' (Hsplit & Hfront & Hdrain & Hblocks)]]].
  { rewrite Z2Nat.id by (Z.div_mod_to_equations; lia).
    Z.div_mod_to_equations; lia. }
  { unfold size in *. Z.div_mod_to_equations; lia. }
  cbv zeta. rewrite Hdrain.
  eexists. split; [reflexivity|].
  unfold absorbed. cbn [Stream.finalized Stream.total_bits Stream.buffer
                        Stream.registers].
  assert (Hrest : size rest = size buf - size front)
    by (rewrite Hsplit, size_app; lia).
  rewrite Z2Nat.id in Hfront by (Z.div_mod_to_equations; lia).
  split; [reflexivity|]. split; [rewrite size_app; lia|].
  split; [Z.div_mod_to_equations; lia|].
  exists (P ++ front). split; [|split].
  - rewrite HX, <- !app_assoc. f_equal. exact Hsplit.
  - rewrite size_app. Z.div_mod_to_equations; lia.
  - rewrite run_blocks_app; [now rewrite Hrun | exact HP |].
    rewrite Hfront, Z.mul_comm. apply Z.mod_mul. lia.
Qed.

Lemma absorb_all_absorbed (chunks : list (list Z)) :
  forall (inst : Stream.Instance) (X : list Z),
  absorbed inst X ->
  exists inst', Stream.absorb_all inst chunks = Stream.Done inst' /\
                absorbed inst' (X ++ List.concat chunks).
Proof.
  induction chunks as [|c rest IH]; intros inst X H.
  - exists inst. split; [reflexivity|]. cbn. now rewrite app_nil_r.
  - destruct (absorb_absorbed inst X c H) as [inst1 [E1 H1]].
    destruct (IH inst1 (X ++ c) H1) as [inst' [E' H']].
    exists inst'. split.
    + cbn [Stream.absorb_all]. rewrite E1. exact E'.
    + cbn [List.concat]. now rewrite app_assoc.
Qed.

Lemma fill_zeros (z : nat) : forall (m : list Z) (fuel : nat),
  Z.of_nat z = (56 - size m) mod 64 -> (z <= fuel)%nat ->
  while_loop fuel Stream.fill_cond (fun buf => Ok (buf ++ [0x00])) m
  = Ok (m ++ repeat 0 z).
Proof.
  induction z as [|z IH]; intros m fuel Hz Hfuel.
  - assert (E : Stream.fill_cond m = false).
    { unfold Stream.fill_cond. apply negb_false_iff, Z.eqb_eq.
      change (Z.of_nat 0) with 0 in Hz. Z.div_mod_to_equations; lia. }
    destruct fuel; cbn [while_loop]; rewrite E; cbn; now rewrite app_nil_r.
  - destruct fuel as [|fuel]; [lia|].
    assert (E : Stream.fill_cond m = true).
    { unfold Stream.fill_cond. apply negb_true_iff, Z.eqb_neq.
      Z.div_mod_to_equations; lia. }
    cbn [while_loop]. rewrite E. cbn [bind]. rewrite IH.
    + rewrite <- app_assoc. reflexivity.
    + rewrite size_app. change (size [0]) with 1.
      Z.div_mod_to_equations; lia.
    + lia.
Qed.

(** The eight bytes taken from the counter are those of the 64-bit field. *)
Lemma counter_bytes (n : Z) :
  map (fun s => 8 * n / 2 ^ s mod 256) [56; 48; 40; 32; 24; 16; 8; 0]
  = Spec.length_field n.
Proof.
  unfold Spec.length_field. cbn [map].
  replace (8 * n) with (n * 8) by lia.
  change (2 ^ 64) with 18446744073709551616.
  change (2 ^ 56) with 72057594037927936.
  change (2 ^ 48) with 281474976710656.
  change (2 ^ 40) with 1099511627776.
  change (2 ^ 32) with 4294967296.
  change (2 ^ 24) with 16777216.
  change (2 ^ 16) with 65536.
  change (2 ^ 8) with 256.
  change (2 ^ 0) with 1.
  repeat (apply f_equal2; [Z.div_mod_to_equations; lia|]).
  reflexivity.
Qed.

Lemma finalize_absorbed (inst : Stream.Instance) (X : list Z) :
  absorbed inst X ->
  exists st' inst',
    Stream.finalize inst = Stream.Done (Spec.serialize st', inst') /\
    Stream.finalized inst' = true /\
    Stream.registers inst' = st' /\
    Stream.buffer inst' = [] /\
    run_blocks (Spec.pad X) initial_state = Ok st'.
Proof.
  intros (Hfin & Hbits & Hbuf & P & HX & HP & Hrun).
  unfold Stream.finalize. rewrite Hfin.
  set (b := Stream.buffer inst) in *.
  assert (Hb : 0 <= size b) by (unfold size; lia).
  assert (HPs : 0 <= size P) by (unfold size; lia).
  assert (HXs : size X = size P + size b) by (rewrite HX, size_app; lia).
  set (z := Spec.zero_count (size b)).
  assert (Hz : 0 <= z < 64) by (apply Z.mod_pos_bound; lia).
  assert (Hzz : Spec.zero_count (size X) = z)
    by (unfold z, Spec.zero_count; rewrite HXs; Z.div_mod_to_equations; lia).
  cbv zeta.
  rewrite (fill_zeros (Z.to_nat z)).
  2:{ rewrite size_app. change (size [128]) with 1.
      rewrite Z2Nat.id by lia. unfold z, Spec.zero_count. f_equal. lia. }
  2:{ lia. }
  rewrite Hbits, counter_bytes.
  set (tail := (b ++ [128]) ++ repeat 0 (Z.to_nat z)).
  assert (Htail : size (tail ++ Spec.length_field (size X))
                  = 64 * (if size b <=? 55 then 1 else 2)).
  { unfold tail. rewrite !size_app, size_repeat.
    change (size [128]) with 1.
    change (size (Spec.length_field (size X))) with 8.
    rewrite Z2Nat.id by lia. unfold z, Spec.zero_count.
    destruct (Z.leb_spec (size b) 55); Z.div_mod_to_equations; lia. }
  set (q := if size b <=? 55 then 1 else 2) in *.
  assert (Hq : 1 <= q <= 2) by (unfold q; destruct (size b <=? 55); lia).
  destruct (drain_spec (Z.to_nat q)
              (List.length (tail ++ Spec.length_field (size X)))
              (Stream.registers inst) (tail ++ Spec.length_field (size X)))
    as [front [rest [st' (Hsplit & Hfront & Hdrain & Hblocks)]]].
  { rewrite Z2Nat.id by lia. lia. }
  { unfold size at 1 in Htail. lia. }
  rewrite Z2Nat.id in Hfront by lia.
  assert (Hrest : rest = []).
  { assert (Hl : size rest = 0)
      by (apply (f_equal size) in Hsplit; rewrite Htail, size_app in Hsplit; lia).
    unfold size in Hl. destruct rest; [reflexivity | cbn in Hl; lia]. }
  subst rest. rewrite app_nil_r in Hsplit. subst front.
  rewrite Hdrain.
  exists st'. eexists. split; [reflexivity|].
  cbn [Stream.finalized Stream.registers Stream.buffer].
  split; [reflexivity|]. split; [reflexivity|]. split; [reflexivity|].
  replace (Spec.pad X) with (P ++ tail ++ Spec.length_field (size X)).
  - rewrite run_blocks_app; [now rewrite Hrun | exact HP |].
    rewrite Htail, Z.mul_comm. apply Z.mod_mul. lia.
  - unfold Spec.pad, tail. rewrite Hzz, HX. fold b.
    now rewrite <- !app_assoc.
Qed.

Lemma bytes_of_string_app (s t : string) :
  bytes_of_string (s ++ t) = bytes_of_string s ++ bytes_of_string t.
Proof. unfold bytes_of_string. now rewrite chars_append, map_app. Qed.

Lemma bytes_of_concat (chunks : list string) :
  bytes_of_string (String.concat EmptyString chunks)
  = List.concat (map bytes_of_string chunks).
Proof.
  induction chunks as [|c [|c' rest] IH].
  - reflexivity.
  - cbn. now rewrite app_nil_r.
  - change (String.concat EmptyString (c :: c' :: rest))
      with (c ++ EmptyString ++ String.concat EmptyString (c' :: rest))%string.
    cbn [String.append]. rewrite bytes_of_string_app, IH. reflexivity.
Qed.

(** What [feed] gives for chunks of bytes, against the block loop on the
    padded message of their concatenation. *)
Lemma feed_pad (chunks : list (list Z)) :
  exists st' inst',
    Stream.feed chunks = Stream.Done (Spec.serialize st', inst') /\
    Stream.finalized inst' = true /\
    Stream.registers inst' = st' /\
    run_blocks (Spec.pad (List.concat chunks)) initial_state = Ok st'.
Proof.
  destruct (absorb_all_absorbed chunks Stream.new [] absorbed_new)
    as [inst [E H]].
  cbn [app] in H.
  destruct (finalize_absorbed inst _ H) as [st' [inst' (Ef & Hfin & Hreg & _ & Hrun)]].
  exists st', inst'. unfold Stream.feed. rewrite E.
  now repeat split.
Qed.

(** C8. For every input [x] and every way of cutting it into chunks, the
    chunks absorbed in order by a fresh instance and then finalized give,
    without [AlreadyFinalized] or a fault, the same 32-byte digest as the
    specification's one-shot [hash(x)], and that digest is the one the
    source's [sha256(x)] returns from the initial registers: the bytes of
    its registers, which its 64-character string reads back to and which
    render as that string. *)
Theorem streaming_equivalence (chunks : list string) :
  let x := String.concat EmptyString chunks in
  exists digest inst inst1 d st',
    Stream.feed (map bytes_of_string chunks) = Stream.Done (digest, inst) /\
    Stream.finalized inst = true /\
    Stream.hash (bytes_of_string x) = Stream.Done (digest, inst1) /\
    sha256 x initial_state = Ok (d, st') /\
    digest = Spec.serialize st' /\
    List.length digest = 32%nat /\
    Spec.of_hex d = digest /\
    Spec.to_hex digest = d.
Proof.
  intros x.
  destruct (sha256_run x initial_state)
    as [n [st' (_ & _ & _ & Hrun & Hok & Hsha & _)]].
  destruct (feed_pad (map bytes_of_string chunks))
    as [st1 [inst (Efeed & Hfin & _ & Hrun1)]].
  destruct (feed_pad [bytes_of_string x]) as [st2 [inst2 (Ehash & _ & _ & Hrun2)]].
  cbn [List.concat] in Hrun2. rewrite app_nil_r in Hrun2.
  rewrite <- bytes_of_concat in Hrun1. fold x in Hrun1.
  assert (st1 = st') by congruence. assert (st2 = st') by congruence.
  subst st1 st2.
  exists (Spec.serialize st'), inst, inst2, (digest_string st'), st'.
  split; [exact Efeed|]. split; [exact Hfin|]. split; [exact Ehash|].
  split; [exact Hsha|]. split; [reflexivity|].
  split; [apply serialize_ok|].
  rewrite (digest_string_to_hex st' Hok).
  split; [apply of_hex_to_hex, serialize_ok | reflexivity].
Qed.

(** The 64-byte input absorbed as one chunk and as 64 chunks of one byte:
    the same digest, that of [sha256] on the 64 bytes. *)
Example streaming_64_bytes :
  exists inst1 inst2,
    Stream.feed [bytes_of_string a64]
    = Stream.Done (Spec.of_hex
        "ffe054fe7ae0cb6dc65c3af9b61d5209f439851db43d0ba5997337df154668eb",
        inst1) /\
    Stream.feed (repeat [97] 64)
    = Stream.Done (Spec.of_hex
        "ffe054fe7ae0cb6dc65c3af9b61d5209f439851db43d0ba5997337df154668eb",
        inst2) /\
    digest_of (sha256 a64 initial_state)
    = Some "ffe054fe7ae0cb6dc65c3af9b61d5209f439851db43d0ba5997337df154668eb"%string.
Proof.
  eexists. eexists. split; [vm_compute; reflexivity|].
  split; vm_compute; reflexivity.
Qed.
